(** * Nearest-index lookup and neighbour windows

    A shallow embedding of [find_nearest_index] and [get_neighbors_index]
    from [astrodynamics/utils/helper.py], with the properties stated for
    them.

    An array is a numpy array of one of two element types, [int64] or
    [float64], and the query value is a number of that type ([is_dtype]):
    an int64 for an int64 array, a float64, such as a Python float, for
    a float64 array.  A number
    is written as the rational it denotes ([Q]): an int64 is an integer
    in [-2^63, 2^63), a float64 a binary64 number; NaN and infinite
    elements are left out.  Comparisons of machine numbers are exact.
    The difference [value - x] and its [abs] are the machine operations:
    int64 wraps around, float64 rounds to nearest, ties to even, and an
    overflowing float64 result, an infinity, is written [2^1024], which
    compares with every float64 as the infinity does.  Indices, lengths
    and the neighbour count are mathematical integers ([Z]).  A Python
    exception is a value of [result].  The three numpy primitives used by
    the source are modelled next to it:
    - [argsort]: a sorting permutation of the positions, here a stable
      insertion sort of the value/position pairs, which is what numpy
      runs on short arrays; numpy does not fix the order of equal
      values, and the proofs use only that [argsort] is a permutation of
      the positions that puts the values in ascending order;
    - [take]: integer-array indexing [array[idx_sorted]];
    - [searchsorted_left]: the bisection loop of
      [np.searchsorted(.., side='left')].

    The other helpers of the file that are plain control flow over
    numbers, strings and objects follow: [prefix], [format_size] and the
    docstring inheritance of [_InheritDoc]. *)

From Stdlib Require Import String Ascii DecimalString.
From Stdlib Require Import ZArith QArith Qabs Qround List Bool Lia Lqa.
From Stdlib Require Import Permutation Sorted Orders.
Import ListNotations.

Open Scope Z_scope.

(** ** Exceptions *)

Inductive exn : Type :=
| IndexError.

Inductive result (A : Type) : Type :=
| Ok (a : A)
| Raise (e : exn).

Arguments Ok {A} a.
Arguments Raise {A} e.

Definition bind {A B : Type} (c : result A) (k : A -> result B) : result B :=
  match c with
  | Ok a => k a
  | Raise e => Raise e
  end.

Notation "x <- c ;; k" := (bind c (fun x => k))
  (at level 61, c at next level, right associativity).

(** ** Sequences *)

(** [len(l)] *)
Definition len {A : Type} (l : list A) : Z := Z.of_nat (length l).

(** [l[i]] for an integer [i]: a negative index counts from the end, an
    index outside [-len(l) .. len(l) - 1] raises [IndexError]. *)
Definition getitem {A : Type} (l : list A) (i : Z) : result A :=
  let j := if i <? 0 then i + len l else i in
  if (0 <=? j) && (j <? len l) then
    match nth_error l (Z.to_nat j) with
    | Some x => Ok x
    | None => Raise IndexError
    end
  else Raise IndexError.

(** [array[ix]] for an integer array [ix]: the elements at those
    positions, in the order of [ix]. *)
Fixpoint take {A : Type} (l : list A) (ix : list Z) : result (list A) :=
  match ix with
  | [] => Ok []
  | i :: ix' =>
      x <- getitem l i ;;
      xs <- take l ix' ;;
      Ok (x :: xs)
  end.

(** ** Machine numbers *)

Inductive dtype : Type :=
| int64
| float64.

(** The int64 that a mathematical integer wraps around to. *)
Definition wrap64 (z : Z) : Z := (z + 2 ^ 63) mod 2 ^ 64 - 2 ^ 63.

Definition pow2 (e : Z) : Q := Qpower (2#1) e.

(** The nearest integer, the even one of two at the same distance. *)
Definition round_half_even (q : Q) : Z :=
  let n := Qnum q in
  let d := Z.pos (Qden q) in
  let f := n / d in
  match 2 * (n mod d) ?= d with
  | Lt => f
  | Gt => f + 1
  | Eq => if Z.even f then f else f + 1
  end.

(** The binary exponent [e] of a non-zero [q]: [2^e <= |q| < 2^(e+1)]. *)
Definition ilog2 (q : Q) : Z :=
  let e0 := Z.log2 (Z.abs (Qnum q)) - Z.log2 (Z.pos (Qden q)) in
  if Qle_bool (pow2 e0) (Qabs q) then e0 else e0 - 1.

(** What stands for the float64 infinity. *)
Definition infinity : Q := pow2 1024.

(** The float64 nearest to [x], ties to even: 53 significant bits, no
    bit below [2^-1074], and an infinity from [2^1024] on. *)
Definition round64 (x : Q) : Q :=
  let q := Qred x in
  if Qeq_bool q 0 then 0%Q
  else
    let u := Z.max (ilog2 q - 52) (-1074) in
    let r := (inject_Z (round_half_even (q / pow2 u)) * pow2 u)%Q in
    if Qle_bool infinity (Qabs r)
    then (if Qle_bool 0 r then infinity else - infinity)%Q
    else Qred r.

(** [x] is a number of the element type: an integer in [-2^63, 2^63),
    or a finite float64. *)
Definition is_dtype (dt : dtype) (x : Q) : bool :=
  match dt with
  | int64 =>
      Qeq_bool (inject_Z (Qfloor x)) x
      && (- 2 ^ 63 <=? Qfloor x) && (Qfloor x <? 2 ^ 63)
  | float64 =>
      Qeq_bool (round64 x) x && negb (Qle_bool infinity (Qabs x))
  end.

(** [x - y] on two numbers of the element type. *)
Definition subtract (dt : dtype) (x y : Q) : Q :=
  match dt with
  | int64 => inject_Z (wrap64 (Qfloor (x - y)))
  | float64 => round64 (x - y)
  end.

(** [abs(x)]; the int64 [-2^63] is its own absolute value. *)
Definition absolute (dt : dtype) (x : Q) : Q :=
  match dt with
  | int64 => inject_Z (wrap64 (Z.abs (Qfloor x)))
  | float64 => Qabs x
  end.

(** [abs(value - x)] as the source computes it. *)
Definition distance (dt : dtype) (value x : Q) : Q :=
  absolute dt (subtract dt value x).

(** The computed [abs(value - x)] is the distance of [x] from [value]:
    nothing wrapped around, nothing was rounded. *)
Definition exact_distance (dt : dtype) (value x : Q) : Prop :=
  (distance dt value x == Qabs (value - x))%Q.

(** ** Sorting the positions by value *)

Module KeyOrder <: TotalLeBool.
Definition t : Type := (Q * Z)%type.
Definition leb (p q : t) : bool := Qle_bool (fst p) (fst q).
Infix "<=?" := leb (at level 70, no associativity).
Lemma leb_total : forall p q, leb p q = true \/ leb q p = true.
Proof.
  intros p q. unfold leb. rewrite !Qle_bool_iff.
  destruct (Qlt_le_dec (fst q) (fst p)) as [H | H].
  - right. apply Qlt_le_weak, H.
  - left. exact H.
Qed.
End KeyOrder.

(** Insertion before the first pair that is not smaller: pairs of equal
    value keep the order in which they are inserted. *)
Fixpoint insert_pair (p : Q * Z) (s : list (Q * Z)) : list (Q * Z) :=
  match s with
  | [] => [p]
  | q :: s' => if KeyOrder.leb p q then p :: s else q :: insert_pair p s'
  end.

Definition sort_pairs (l : list (Q * Z)) : list (Q * Z) :=
  fold_right insert_pair [] l.

(** The positions [0 .. len(a) - 1]. *)
Definition positions {A : Type} (a : list A) : list Z :=
  map Z.of_nat (seq 0 (length a)).

(** Each element paired with its position. *)
Definition enumerate (a : list Q) : list (Q * Z) :=
  combine a (positions a).

Definition sorted_pairs (a : list Q) : list (Q * Z) :=
  sort_pairs (enumerate a).

(** [np.argsort(a)] *)
Definition argsort (a : list Q) : list Z :=
  map snd (sorted_pairs a).

(** The values of [a] in ascending order. *)
Definition sorted_values (a : list Q) : list Q :=
  map fst (sorted_pairs a).

(** The two orders on value/position pairs: strictly by value, and as the
    sort compares them. *)
Definition fst_lt (p q : Q * Z) : Prop := (fst p < fst q)%Q.
Definition fst_le (p q : Q * Z) : Prop := is_true (KeyOrder.leb p q).

(** ** Bisection *)

Definition Qlt_bool (x y : Q) : bool :=
  match (x ?= y)%Q with
  | Lt => true
  | _ => false
  end.

(** The loop of the left bisection: while [lo < hi], halve the interval,
    moving [lo] past the middle element when it is less than the key. *)
Fixpoint bisect_left (fuel : nat) (a : list Q) (key : Q) (lo hi : nat) : nat :=
  match fuel with
  | O => lo
  | S fuel' =>
      if (lo <? hi)%nat then
        let mid := (lo + (hi - lo) / 2)%nat in
        match nth_error a mid with
        | Some x =>
            if Qlt_bool x key
            then bisect_left fuel' a key (S mid) hi
            else bisect_left fuel' a key lo mid
        | None => lo
        end
      else lo
  end.

(** [np.searchsorted(a, value, side='left')] *)
Definition searchsorted_left (a : list Q) (value : Q) : Z :=
  Z.of_nat (bisect_left (length a) a value 0 (length a)).

(** [p] is the leftmost insertion point of [v] in the ascending list [s]:
    everything before [p] is less than [v], everything from [p] on is at
    least [v]. *)
Definition leftmost_insertion_point (s : list Q) (v : Q) (p : Z) : Prop :=
  0 <= p <= len s /\
  (forall j x, 0 <= j < p -> getitem s j = Ok x -> (x < v)%Q) /\
  (forall j x, p <= j < len s -> getitem s j = Ok x -> (v <= x)%Q).

(** ** The two functions of the source *)

Definition find_nearest_index (dt : dtype) (array : list Q) (value : Q)
  : result Z :=
  let idx_sorted := argsort array in
  sorted_array <- take array idx_sorted ;;
  let idx := searchsorted_left sorted_array value in
  if len array <=? idx then
    getitem idx_sorted (len array - 1)
  else if idx =? 0 then
    getitem idx_sorted 0
  else
    before <- getitem sorted_array (idx - 1) ;;
    at_idx <- getitem sorted_array idx ;;
    if Qlt_bool (absolute dt (subtract dt value before))
                (absolute dt (subtract dt value at_idx))
    then getitem idx_sorted (idx - 1)
    else getitem idx_sorted idx.

(** [slice(start, stop)] *)
Record slice : Type := Slice { start : Z; stop : Z }.

Definition get_neighbors_index (dt : dtype) (array : list Q) (central : Q)
  (num_neighbors : Z) : result slice :=
  idx <- find_nearest_index dt array central ;;
  let start0 := Z.max 0 (idx - (num_neighbors - 1) / 2) in
  let end_ := Z.min (len array) (start0 + num_neighbors) in
  let start1 := end_ - num_neighbors in
  Ok (Slice start1 end_).

(** The window recipe in words: [half] is [(num_neighbors - 1) // 2]
    (the floor of the half), the window first starts [half] positions
    before [idx] but not before 0, ends [num_neighbors] later but not
    after the array, and its start is then taken back from its end. *)
Definition window_recipe (n idx num_neighbors : Z) (s : slice) : Prop :=
  exists half start0 : Z,
    2 * half <= num_neighbors - 1 < 2 * half + 2 /\
    start0 = Z.max 0 (idx - half) /\
    stop s = Z.min n (start0 + num_neighbors) /\
    start s = stop s - num_neighbors.

(** ** The same lookup over a store of array objects

    In the source [array] names a numpy array object and every numpy call
    returns a fresh object.  Here the objects live in a store, a name
    holds a reference, and a computation threads the store and may raise.
    [None] is a state the program cannot be in: a reference to no object
    or to an object of the other element type. *)

Module Heap.

Inductive ndarray : Type :=
| DataArray (data : list Q)
| IntArray (data : list Z).

Definition ref : Type := nat.
Definition store : Type := list ndarray.

Definition M (A : Type) : Type := store -> option (result A * store).

Definition ret {A : Type} (a : A) : M A := fun st => Some (Ok a, st).

Definition lift {A : Type} (c : result A) : M A := fun st => Some (c, st).

Definition mbind {A B : Type} (m : M A) (k : A -> M B) : M B :=
  fun st =>
    match m st with
    | None => None
    | Some (Raise e, st') => Some (Raise e, st')
    | Some (Ok a, st') => k a st'
    end.

Notation "x <~ c ;; k" := (mbind c (fun x => k))
  (at level 61, c at next level, right associativity).

(** A fresh object, placed after all existing ones. *)
Definition alloc (x : ndarray) : M ref :=
  fun st => Some (Ok (length st), st ++ [x]).

Definition read_data (r : ref) : M (list Q) :=
  fun st =>
    match nth_error st r with
    | Some (DataArray d) => Some (Ok d, st)
    | _ => None
    end.

Definition read_int (r : ref) : M (list Z) :=
  fun st =>
    match nth_error st r with
    | Some (IntArray d) => Some (Ok d, st)
    | _ => None
    end.

(** [np.argsort(array)] *)
Definition np_argsort (array : ref) : M ref :=
  a <~ read_data array ;; alloc (IntArray (argsort a)).

(** [array[ix]] *)
Definition np_take (array ix : ref) : M ref :=
  a <~ read_data array ;;
  i <~ read_int ix ;;
  xs <~ lift (take a i) ;;
  alloc (DataArray xs).

(** [np.array(x)]: a copy *)
Definition np_array (x : ref) : M ref :=
  a <~ read_data x ;; alloc (DataArray a).

(** [np.searchsorted(a, value, side='left')] *)
Definition np_searchsorted (a : ref) (value : Q) : M Z :=
  s <~ read_data a ;; ret (searchsorted_left s value).

Definition np_len (a : ref) : M Z :=
  s <~ read_data a ;; ret (len s).

Definition item_data (a : ref) (i : Z) : M Q :=
  s <~ read_data a ;; lift (getitem s i).

Definition item_int (a : ref) (i : Z) : M Z :=
  s <~ read_int a ;; lift (getitem s i).

Definition find_nearest_index (dt : dtype) (array : ref) (value : Q) : M Z :=
  idx_sorted <~ np_argsort array ;;
  gathered <~ np_take array idx_sorted ;;
  sorted_array <~ np_array gathered ;;
  idx <~ np_searchsorted sorted_array value ;;
  n <~ np_len array ;;
  if n <=? idx then
    item_int idx_sorted (n - 1)
  else if idx =? 0 then
    item_int idx_sorted 0
  else
    before <~ item_data sorted_array (idx - 1) ;;
    at_idx <~ item_data sorted_array idx ;;
    if Qlt_bool (absolute dt (subtract dt value before))
                (absolute dt (subtract dt value at_idx))
    then item_int idx_sorted (idx - 1)
    else item_int idx_sorted idx.

End Heap.

(** ** The other helpers of [helper.py]

    They raise other exceptions than the lookups above. *)

Inductive error : Type :=
| TypeError
| UnboundLocalError
| OverflowError.

Inductive outcome (A : Type) : Type :=
| Return (a : A)
| Throw (e : error).

Arguments Return {A} a.
Arguments Throw {A} e.

(** [prefix(prefix, iterable)] over strings: the items it yields, in
    order.  For a string [x], ['{prefix}{x}'.format(..)] is the
    concatenation. *)
Definition prefix (prefix : string) (iterable : list string) : list string :=
  map (fun x => (prefix ++ x)%string) iterable.

(** *** [format_size]

    [value] is the number passed, an integer, a float or a fraction, and
    [bytes = float(value)] is a float64.  The products and quotients of
    the source are float64 operations.  The text of [format % x], for a
    float64 [x], is a parameter [fmt]; ['%d' % x] truncates towards zero
    and prints the integer in decimal. *)

Module FormatSize.

Definition size_suffixes_decimal : list string :=
  ["kB"; "MB"; "GB"; "TB"; "PB"; "EB"; "ZB"; "YB"]%string.

Definition size_suffixes_binary : list string :=
  ["KiB"; "MiB"; "GiB"; "TiB"; "PiB"; "EiB"; "ZiB"; "YiB"]%string.

(** Iterating the string ["KMGTPEZY"] gives its characters. *)
Definition size_suffixes_gnu : list string :=
  ["K"; "M"; "G"; "T"; "P"; "E"; "Z"; "Y"]%string.

(** ['%d' % x] *)
Definition percent_d (x : Q) : string :=
  NilZero.string_of_int (Z.to_int (Z.quot (Qnum x) (Z.pos (Qden x)))).

(** [float(x)]: the nearest float64; a number that rounds to an infinity
    raises [OverflowError]. *)
Definition to_float (x : Q) : outcome Q :=
  let r := round64 x in
  if Qle_bool infinity (Qabs r) then Throw OverflowError else Return r.

(** The float64 product of two float64. *)
Definition fmul (x y : Q) : Q := round64 (x * y).

(** The float64 quotient of a float64, possibly an infinity, by a
    positive float64. *)
Definition fdiv (x y : Q) : Q :=
  if Qle_bool infinity (Qabs x) then x else round64 (x / y).

(** [base * bytes / unit]: the two integers are converted to float64,
    the product is taken first. *)
Definition scaled (base : Z) (bytes : Q) (unit : Z) : Q :=
  fdiv (fmul (round64 (inject_Z base)) bytes) (round64 (inject_Z unit)).

Section Format.

Variable fmt : Q -> string.

(** The [for i, s in enumerate(suffix)] loop and the two returns after
    it; [last] holds [unit] and [s] as the previous iteration left them. *)
Fixpoint suffix_loop (base : Z) (bytes : Q) (gnu : bool) (i : nat)
  (suffix : list string) (last : option (Z * string)) : outcome string :=
  match suffix with
  | [] =>
      match last with
      | None => Throw UnboundLocalError
      | Some (unit, s) =>
          if gnu
          then Return (fmt (scaled base bytes unit) ++ s)%string
          else Return (fmt (scaled base bytes unit) ++ " " ++ s)%string
      end
  | s :: rest =>
      let unit := base ^ (Z.of_nat i + 2) in
      if Qlt_bool bytes (inject_Z unit) && negb gnu then
        Return (fmt (scaled base bytes unit) ++ " " ++ s)%string
      else if Qlt_bool bytes (inject_Z unit) && gnu then
        Return (fmt (scaled base bytes unit) ++ s)%string
      else suffix_loop base bytes gnu (S i) rest (Some (unit, s))
  end.

Definition format_size (value : Q) (binary gnu : bool) : outcome string :=
  let suffix :=
    if gnu then size_suffixes_gnu
    else if binary then size_suffixes_binary
    else size_suffixes_decimal in
  let base := if gnu || binary then 1024 else 1000 in
  match to_float value with
  | Throw e => Throw e
  | Return bytes =>
      if Qeq_bool bytes 1 && negb gnu then Return "1 Byte"%string
      else if Qlt_bool bytes (inject_Z base) && negb gnu then
        Return (percent_d bytes ++ " Bytes")%string
      else if Qlt_bool bytes (inject_Z base) && gnu then
        Return (percent_d bytes ++ "B")%string
      else suffix_loop base bytes gnu 0 suffix None
  end.

End Format.

End FormatSize.

(** *** [_InheritDoc]

    Functions and other attribute values are objects in a store; of an
    object only its truth value [bool(obj)] and its [__doc__] matter.  A
    class is the list of its own entries [vars(cls).items()], in
    iteration order, and its bases; of a base only what [getattr] finds
    through it matters.  The sentinel is a falsy object, as is the empty
    string. *)

Module InheritDoc.

Inductive docval : Type :=
| DocNone
| DocStr (s : string)
| DocSentinel.

Record object : Type := { truth : bool; doc : docval }.

Definition ref : Type := nat.
Definition store : Type := ref -> object.

(** [obj.__doc__ = d] *)
Definition set_doc (st : store) (r : ref) (d : docval) : store :=
  fun r' => if Nat.eqb r' r then {| truth := truth (st r); doc := d |} else st r'.

(** [bool(obj.__doc__)] *)
Definition doc_truthy (d : docval) : bool :=
  match d with
  | DocStr s => negb (String.eqb s "")
  | DocNone => false
  | DocSentinel => false
  end.

Definition namespace : Type := list (string * ref).

(** [getattr(parent, name, None)] *)
Fixpoint getattr (parent : namespace) (name : string) : option ref :=
  match parent with
  | [] => None
  | (n, r) :: rest => if String.eqb n name then Some r else getattr rest name
  end.

Record class : Type := { vars : list (string * ref); bases : list namespace }.

Definition mark (fn : ref) (st : store) : outcome ref * store :=
  match doc (st fn) with
  | DocNone => (Return fn, set_doc st fn DocSentinel)
  | _ => (Throw TypeError, st)
  end.

(** The [for parent in cls.__bases__] loop with its [else]: the final
    [parfunc_found] and the value assigned to [func.__doc__]. *)
Fixpoint inherit_loop (st : store) (name : string) (parents : list namespace)
  (parfunc_found : bool) : bool * docval :=
  match parents with
  | [] => (parfunc_found, DocNone)
  | parent :: rest =>
      match getattr parent name with
      | None => inherit_loop st name rest false
      | Some parfunc =>
          if truth (st parfunc) && doc_truthy (doc (st parfunc))
          then (truth (st parfunc), doc (st parfunc))
          else inherit_loop st name rest (truth (st parfunc))
      end
  end.

(** The [for name, func in vars(cls).items()] loop: the final
    [sentinel_found], or the [TypeError] raised inside it. *)
Fixpoint resolve_loop (parents : list namespace) (items : list (string * ref))
  (sentinel_found : bool) (st : store) : outcome bool * store :=
  match items with
  | [] => (Return sentinel_found, st)
  | (name, func) :: rest =>
      match doc (st func) with
      | DocSentinel =>
          let (parfunc_found, d) := inherit_loop st name parents false in
          let st' := set_doc st func d in
          if parfunc_found
          then resolve_loop parents rest true st'
          else (Throw TypeError, st')
      | _ => resolve_loop parents rest sentinel_found st
      end
  end.

Definition resolve (cls : class) (st : store) : outcome class * store :=
  match resolve_loop (bases cls) (vars cls) false st with
  | (Return true, st') => (Return cls, st')
  | (Return false, st') => (Throw TypeError, st')
  | (Throw e, st') => (Throw e, st')
  end.

(** [bool(getattr(parent, name, None))] *)
Definition attr_truth (st : store) (parent : namespace) (name : string) : bool :=
  match getattr parent name with
  | Some r => truth (st r)
  | None => false
  end.

(** Through [parent], [name] is a truthy attribute with the truthy
    docstring [d]: the condition under which the loop over the bases
    stops at [parent]. *)
Definition documents (st : store) (name : string) (parent : namespace)
  (d : docval) : Prop :=
  exists r,
    getattr parent name = Some r /\
    truth (st r) = true /\
    doc (st r) = d /\
    doc_truthy d = true.

(** [func] is marked: its docstring is the sentinel. *)
Definition marked (st : store) (func : ref) : Prop := doc (st func) = DocSentinel.

End InheritDoc.

(** A store and two classes for the examples: object 0 is a method
    [area] without docstring, object 1 an undocumented [area] of one
    base, object 2 a documented [area] of another base; every other
    object is falsy and undocumented. *)
Definition example_store : InheritDoc.store :=
  fun r =>
    match r with
    | 0%nat => {| InheritDoc.truth := true; InheritDoc.doc := InheritDoc.DocNone |}
    | 1%nat => {| InheritDoc.truth := true; InheritDoc.doc := InheritDoc.DocNone |}
    | 2%nat => {| InheritDoc.truth := true;
                  InheritDoc.doc := InheritDoc.DocStr "Area of the shape." |}
    | _ => {| InheritDoc.truth := false; InheritDoc.doc := InheritDoc.DocNone |}
    end.

Definition plain_base : InheritDoc.namespace := [("area"%string, 1%nat)].
Definition documented_base : InheritDoc.namespace := [("area"%string, 2%nat)].
Definition empty_base : InheritDoc.namespace := [].

Definition example_class : InheritDoc.class :=
  {| InheritDoc.vars := [("area"%string, 0%nat)];
     InheritDoc.bases := [plain_base; documented_base] |}.

Definition orphan_class : InheritDoc.class :=
  {| InheritDoc.vars := [("area"%string, 0%nat)];
     InheritDoc.bases := [plain_base; empty_base] |}.

(** [example_store] after [mark] on object 0. *)
Definition marked_store : InheritDoc.store :=
  snd (InheritDoc.mark 0%nat example_store).

(** The array of the worked examples. *)
Definition example_array : list Q := [10#1; 1#1; 7#1; 3#1; 9#1]%Q.

Example argsort_example : argsort example_array = [1; 3; 2; 4; 0].
Proof. vm_compute. reflexivity. Qed.

Example fni_example (dt : dtype) :
  find_nearest_index dt example_array (6#1) = Ok 2.
Proof. destruct dt; vm_compute; reflexivity. Qed.

Example gni_example (dt : dtype) :
  get_neighbors_index dt example_array (6#1) 3 = Ok (Slice 1 4).
Proof. destruct dt; vm_compute; reflexivity. Qed.

(** Equal values keep their order. *)
Example argsort_stable : argsort [5#1; 5#1; 5#1; 2#1]%Q = [3; 0; 1; 2].
Proof. vm_compute. reflexivity. Qed.

(** Float64 rounding: [2^53 - 1/2] is halfway between two float64 and
    goes to the even one; [0.1] is not a float64. *)
Example round64_tie :
  round64 (inject_Z (2 ^ 53) - (1#2)) = inject_Z (2 ^ 53).
Proof. vm_compute. reflexivity. Qed.

Example round64_tenth :
  round64 (1#10) = (3602879701896397 # 36028797018963968)%Q.
Proof. vm_compute. reflexivity. Qed.

(** Int64 wrap-around: [0 - (-2^63)] is [-2^63], and so is its [abs]. *)
Example distance_wraps :
  distance int64 0 (inject_Z (- 2 ^ 63)) = inject_Z (- 2 ^ 63).
Proof. vm_compute. reflexivity. Qed.

(** * Properties *)

(** ** Indexing *)

Lemma len_nonneg {A : Type} (l : list A) : 0 <= len l.
Proof. unfold len. lia. Qed.

Lemma len_nil_iff {A : Type} (l : list A) : len l = 0 <-> l = [].
Proof.
  unfold len. destruct l as [| x l]; simpl; split; intro H;
    try reflexivity; try discriminate; lia.
Qed.

Lemma len_pos {A : Type} (l : list A) : l <> [] -> 0 < len l.
Proof.
  intro H. pose proof (len_nonneg l) as Hn.
  destruct (Z.eq_dec (len l) 0) as [E | E]; [| lia].
  apply len_nil_iff in E. contradiction.
Qed.

Lemma getitem_nat {A : Type} (l : list A) (n : nat) (x : A) :
  getitem l (Z.of_nat n) = Ok x <-> nth_error l n = Some x.
Proof.
  unfold getitem, len.
  destruct (Z.ltb_spec (Z.of_nat n) 0) as [Hneg | _]; [lia |].
  rewrite Nat2Z.id.
  destruct (Z.leb_spec 0 (Z.of_nat n)) as [_ | Hneg]; [| lia]. simpl.
  destruct (Z.ltb_spec (Z.of_nat n) (Z.of_nat (length l))) as [Hlt | Hge].
  - destruct (nth_error l n) as [y |] eqn:E.
    + split; intro H; inversion H; reflexivity.
    + apply nth_error_None in E. lia.
  - split; [discriminate |]. intro H.
    assert (n < length l)%nat by (apply nth_error_Some; congruence). lia.
Qed.

Lemma getitem_nonneg {A : Type} (l : list A) (i : Z) (x : A) :
  0 <= i -> getitem l i = Ok x -> nth_error l (Z.to_nat i) = Some x /\ i < len l.
Proof.
  intros Hi H. rewrite <- (Z2Nat.id i Hi) in H. apply getitem_nat in H.
  split; [exact H |].
  assert (Z.to_nat i < length l)%nat by (apply nth_error_Some; congruence).
  unfold len. lia.
Qed.

Lemma getitem_in_range {A : Type} (l : list A) (i : Z) :
  0 <= i < len l -> exists x, getitem l i = Ok x.
Proof.
  intros [Hi Hlt]. unfold len in Hlt.
  destruct (nth_error l (Z.to_nat i)) as [x |] eqn:E.
  - exists x. rewrite <- (Z2Nat.id i Hi). apply getitem_nat, E.
  - apply nth_error_None in E. lia.
Qed.

(** Every successful lookup reads one of the positions [0 .. len - 1]. *)
Lemma getitem_Ok_position {A : Type} (l : list A) (i : Z) (x : A) :
  getitem l i = Ok x -> exists n, (n < length l)%nat /\ nth_error l n = Some x.
Proof.
  unfold getitem. set (j := if i <? 0 then i + len l else i).
  destruct (Z.leb_spec 0 j) as [Hj | Hj]; simpl; [| discriminate].
  destruct (Z.ltb_spec j (len l)) as [Hlt | Hlt]; [| discriminate].
  destruct (nth_error l (Z.to_nat j)) as [y |] eqn:E; [| discriminate].
  intro H. inversion H; subst y. exists (Z.to_nat j). split; [| exact E].
  apply nth_error_Some. congruence.
Qed.

Lemma getitem_nil {A : Type} (i : Z) : getitem (@nil A) i = Raise IndexError.
Proof.
  unfold getitem, len. simpl.
  destruct (i <? 0) eqn:E.
  - rewrite Z.add_0_r.
    destruct (Z.leb_spec 0 i); simpl; [| reflexivity].
    apply Z.ltb_lt in E. lia.
  - destruct (Z.leb_spec 0 i); simpl; [| reflexivity].
    destruct (Z.ltb_spec i 0); [lia | reflexivity].
Qed.

(** ** Pairs of values and positions *)

Lemma combine_seq_In (a : list Q) (k : nat) (x : Q) (i : Z) :
  In (x, i) (combine a (map Z.of_nat (seq k (length a)))) ->
  exists n, i = Z.of_nat (k + n) /\ nth_error a n = Some x.
Proof.
  revert k. induction a as [| y a IH]; intros k H; simpl in H; [contradiction |].
  destruct H as [H | H].
  - inversion H; subst. exists 0%nat. split; [f_equal; lia | reflexivity].
  - destruct (IH (S k) H) as [n [Hi Hn]].
    exists (S n). split; [rewrite Hi; f_equal; lia | exact Hn].
Qed.

Lemma enumerate_In (a : list Q) (x : Q) (i : Z) :
  In (x, i) (enumerate a) -> getitem a i = Ok x /\ 0 <= i < len a.
Proof.
  intro H. apply combine_seq_In in H. destruct H as [n [Hi Hn]].
  simpl in Hi. subst i. split.
  - apply getitem_nat, Hn.
  - assert (n < length a)%nat by (apply nth_error_Some; congruence).
    unfold len. lia.
Qed.

Lemma positions_length {A : Type} (a : list A) : length (positions a) = length a.
Proof. unfold positions. rewrite length_map, length_seq. reflexivity. Qed.

Lemma combine_fst {A B : Type} (l : list A) (m : list B) :
  length l = length m -> map fst (combine l m) = l.
Proof.
  revert m. induction l as [| x l IH]; intros [| y m] H; simpl in *;
    try reflexivity; try discriminate.
  f_equal. apply IH. lia.
Qed.

Lemma enumerate_fst (a : list Q) : map fst (enumerate a) = a.
Proof. apply combine_fst. symmetry. apply positions_length. Qed.

Lemma enumerate_length (a : list Q) : length (enumerate a) = length a.
Proof.
  unfold enumerate. rewrite length_combine, positions_length. apply Nat.min_id.
Qed.

(** ** The sort *)

Lemma insert_pair_perm (p : Q * Z) (s : list (Q * Z)) :
  Permutation (p :: s) (insert_pair p s).
Proof.
  induction s as [| q s IH]; simpl; [apply Permutation_refl |].
  destruct (KeyOrder.leb p q); [apply Permutation_refl |].
  apply perm_trans with (q :: p :: s); [apply perm_swap |].
  apply perm_skip, IH.
Qed.

Lemma sort_pairs_perm (l : list (Q * Z)) : Permutation l (sort_pairs l).
Proof.
  induction l as [| p l IH]; simpl; [apply Permutation_refl |].
  apply perm_trans with (p :: sort_pairs l); [apply perm_skip, IH |].
  apply insert_pair_perm.
Qed.

Lemma sorted_pairs_perm (a : list Q) : Permutation (enumerate a) (sorted_pairs a).
Proof. apply sort_pairs_perm. Qed.

Lemma sorted_pairs_length (a : list Q) : length (sorted_pairs a) = length a.
Proof.
  rewrite <- (Permutation_length (sorted_pairs_perm a)). apply enumerate_length.
Qed.

Lemma argsort_len (a : list Q) : len (argsort a) = len a.
Proof. unfold len, argsort. rewrite length_map, sorted_pairs_length. reflexivity. Qed.

Lemma sorted_values_len (a : list Q) : len (sorted_values a) = len a.
Proof.
  unfold len, sorted_values. rewrite length_map, sorted_pairs_length. reflexivity.
Qed.

Lemma sorted_values_perm (a : list Q) : Permutation a (sorted_values a).
Proof.
  unfold sorted_values. rewrite <- (enumerate_fst a) at 1.
  apply Permutation_map, sorted_pairs_perm.
Qed.

(** Each sorted pair still names a position of the array and the value there. *)
Lemma sorted_pairs_In (a : list Q) (x : Q) (i : Z) :
  In (x, i) (sorted_pairs a) -> getitem a i = Ok x /\ 0 <= i < len a.
Proof.
  intro H. apply enumerate_In.
  apply (Permutation_in _ (Permutation_sym (sorted_pairs_perm a))), H.
Qed.

Lemma take_map_snd (a : list Q) (ps : list (Q * Z)) :
  (forall x i, In (x, i) ps -> getitem a i = Ok x) ->
  take a (map snd ps) = Ok (map fst ps).
Proof.
  induction ps as [| [x i] ps IH]; intro H; simpl; [reflexivity |].
  rewrite (H x i (or_introl eq_refl)). simpl.
  rewrite IH; [reflexivity |].
  intros y j Hin. apply H. right. exact Hin.
Qed.

(** [array[idx_sorted]] never fails and is the sorted array. *)
Lemma take_argsort (a : list Q) : take a (argsort a) = Ok (sorted_values a).
Proof.
  apply take_map_snd. intros x i H. apply (sorted_pairs_In a x i H).
Qed.

Lemma KeyOrder_trans : Transitive (fun p q => is_true (KeyOrder.leb p q)).
Proof.
  intros p q r. unfold is_true, KeyOrder.leb. rewrite !Qle_bool_iff.
  apply Qle_trans.
Qed.

Lemma insert_pair_sorted (p : Q * Z) (s : list (Q * Z)) :
  StronglySorted fst_le s -> StronglySorted fst_le (insert_pair p s).
Proof.
  induction 1 as [| q s Hs IH Hall]; simpl.
  - constructor; constructor.
  - destruct (KeyOrder.leb p q) eqn:E.
    + constructor; [constructor; assumption |].
      constructor; [exact E |].
      eapply Forall_impl; [| exact Hall].
      intros r Hr. apply (KeyOrder_trans p q r E Hr).
    + constructor; [exact IH |].
      apply (Permutation_Forall (insert_pair_perm p s)).
      constructor; [| exact Hall].
      destruct (KeyOrder.leb_total p q) as [H | H]; [congruence | exact H].
Qed.

Lemma sort_pairs_sorted (l : list (Q * Z)) : StronglySorted fst_le (sort_pairs l).
Proof.
  induction l as [| p l IH]; simpl; [constructor |].
  apply insert_pair_sorted, IH.
Qed.

Lemma sorted_values_sorted (a : list Q) : StronglySorted Qle (sorted_values a).
Proof.
  unfold sorted_values, sorted_pairs.
  pose proof (sort_pairs_sorted (enumerate a)) as H.
  induction H as [| p ps Hs IH Hall]; simpl; constructor.
  - exact IH.
  - apply Forall_map. eapply Forall_impl; [| exact Hall].
    intros q Hq. apply Qle_bool_iff. exact Hq.
Qed.

(** Positions of a sorted list are ordered like their values. *)
Lemma StronglySorted_nth (s : list Q) :
  StronglySorted Qle s ->
  forall i j x y, (i <= j)%nat ->
    nth_error s i = Some x -> nth_error s j = Some y -> (x <= y)%Q.
Proof.
  induction 1 as [| z s Hs IH Hall]; intros i j x y Hij Hi Hj.
  - destruct i; discriminate.
  - destruct i as [| i]; destruct j as [| j]; simpl in *.
    + inversion Hi; inversion Hj; subst. apply Qle_refl.
    + inversion Hi; subst. rewrite Forall_forall in Hall.
      apply Hall. eapply nth_error_In, Hj.
    + lia.
    + apply (IH i j); [lia | assumption | assumption].
Qed.

(** The k-th sorted value sits in the array at the k-th sorted position. *)
Lemma sorted_nth (a : list Q) (k : nat) :
  (k < length a)%nat ->
  exists x i,
    nth_error (sorted_values a) k = Some x /\
    nth_error (argsort a) k = Some i /\
    getitem a i = Ok x /\ 0 <= i < len a.
Proof.
  intro Hk. rewrite <- sorted_pairs_length in Hk.
  destruct (nth_error (sorted_pairs a) k) as [[x i] |] eqn:E.
  - exists x, i. unfold sorted_values, argsort.
    rewrite !nth_error_map, E. simpl.
    repeat split; try reflexivity; apply (sorted_pairs_In a x i); eapply nth_error_In, E.
  - apply nth_error_None in E. lia.
Qed.

(** ** The bisection *)

Lemma Qlt_bool_iff (x y : Q) : Qlt_bool x y = true <-> (x < y)%Q.
Proof.
  unfold Qlt_bool. rewrite Qlt_alt.
  destruct (x ?= y)%Q; split; intro H; try reflexivity; discriminate.
Qed.

Lemma Qlt_bool_false_iff (x y : Q) : Qlt_bool x y = false <-> (y <= x)%Q.
Proof.
  destruct (Qlt_bool x y) eqn:E.
  - apply Qlt_bool_iff in E. split; [discriminate |].
    intro H. exfalso. apply (Qlt_not_le _ _ E H).
  - split; [| reflexivity]. intros _.
    apply Qnot_lt_le. intro H. apply Qlt_bool_iff in H. congruence.
Qed.

Lemma half_bounds (lo hi : nat) :
  (lo < hi)%nat ->
  (lo <= lo + (hi - lo) / 2 /\ lo + (hi - lo) / 2 < hi)%nat.
Proof.
  intro H. split; [lia |].
  assert ((hi - lo) / 2 < hi - lo)%nat by (apply Nat.div_lt; lia). lia.
Qed.

(** The loop invariant of the bisection on an ascending list: positions
    below [lo] hold values less than the key, positions from [hi] on hold
    values at least the key.  With fuel for the whole interval the loop
    ends on the boundary between the two. *)
Lemma bisect_left_inv (s : list Q) (v : Q) :
  StronglySorted Qle s ->
  forall fuel lo hi,
    (lo <= hi <= length s)%nat ->
    (hi - lo <= fuel)%nat ->
    (forall j x, (j < lo)%nat -> nth_error s j = Some x -> (x < v)%Q) ->
    (forall j x, (hi <= j)%nat -> nth_error s j = Some x -> (v <= x)%Q) ->
    let p := bisect_left fuel s v lo hi in
    (lo <= p <= hi)%nat /\
    (forall j x, (j < p)%nat -> nth_error s j = Some x -> (x < v)%Q) /\
    (forall j x, (p <= j)%nat -> nth_error s j = Some x -> (v <= x)%Q).
Proof.
  intros Hs fuel. induction fuel as [| fuel IH]; intros lo hi Hb Hf Hlo Hhi;
    cbn [bisect_left]; cbv zeta.
  - assert (lo = hi) by lia. subst hi. repeat split; try lia; assumption.
  - destruct (Nat.ltb_spec lo hi) as [Hlt | Hge].
    + destruct (half_bounds lo hi Hlt) as [Hm1 Hm2].
      set (mid := (lo + (hi - lo) / 2)%nat) in *.
      destruct (nth_error s mid) as [x |] eqn:E.
      * destruct (Qlt_bool x v) eqn:C.
        -- apply Qlt_bool_iff in C.
           destruct (IH (S mid) hi) as [Hp [H1 H2]]; try lia; try assumption.
           ++ intros j y Hj Hy.
              apply Qle_lt_trans with x; [| exact C].
              apply (StronglySorted_nth s Hs j mid); [lia | exact Hy | exact E].
           ++ repeat split; try lia; assumption.
        -- apply Qlt_bool_false_iff in C.
           destruct (IH lo mid) as [Hp [H1 H2]]; try lia; try assumption.
           ++ intros j y Hj Hy.
              apply Qle_trans with x; [exact C |].
              apply (StronglySorted_nth s Hs mid j); [lia | exact E | exact Hy].
           ++ repeat split; try lia; assumption.
      * apply nth_error_None in E. lia.
    + assert (lo = hi) by lia. subst hi. repeat split; try lia; assumption.
Qed.

(** On an ascending list [searchsorted_left] is the leftmost insertion point. *)
Lemma searchsorted_left_spec (s : list Q) (v : Q) :
  StronglySorted Qle s -> leftmost_insertion_point s v (searchsorted_left s v).
Proof.
  intro Hs. unfold searchsorted_left.
  destruct (bisect_left_inv s v Hs (length s) 0%nat (length s)) as [Hp [H1 H2]];
    try lia.
  - intros j x Hj Hx.
    assert (j < length s)%nat by (apply nth_error_Some; congruence). lia.
  - set (p := bisect_left (length s) s v 0 (length s)) in *.
    unfold leftmost_insertion_point, len. split; [lia |]. split.
    + intros j x Hj Hx. apply getitem_nonneg in Hx; [| lia].
      apply (H1 (Z.to_nat j) x); [lia | apply Hx].
    + intros j x Hj Hx. apply getitem_nonneg in Hx; [| lia].
      apply (H2 (Z.to_nat j) x); [lia | apply Hx].
Qed.

(** There is one leftmost insertion point. *)
Lemma leftmost_insertion_point_unique (s : list Q) (v : Q) (p q : Z) :
  leftmost_insertion_point s v p -> leftmost_insertion_point s v q -> p = q.
Proof.
  intros [Hp [Hp1 Hp2]] [Hq [Hq1 Hq2]].
  destruct (Z.lt_trichotomy p q) as [H | [H | H]]; [| exact H |]; exfalso.
  - destruct (getitem_in_range s p) as [x Hx]; [lia |].
    apply (Qlt_not_le x v); [apply (Hq1 p); [lia | exact Hx] |].
    apply (Hp2 p); [lia | exact Hx].
  - destruct (getitem_in_range s q) as [x Hx]; [lia |].
    apply (Qlt_not_le x v); [apply (Hp1 q); [lia | exact Hx] |].
    apply (Hq2 q); [lia | exact Hx].
Qed.

Lemma insertion_point_is_searchsorted (a : list Q) (v : Q) (p : Z) :
  leftmost_insertion_point (sorted_values a) v p ->
  searchsorted_left (sorted_values a) v = p.
Proof.
  intro H. apply (leftmost_insertion_point_unique (sorted_values a) v); [| exact H].
  apply searchsorted_left_spec, sorted_values_sorted.
Qed.

(** ** The sorted array, by integer position *)

Lemma sorted_at (a : list Q) (k : Z) :
  0 <= k < len a ->
  exists x i,
    getitem (sorted_values a) k = Ok x /\
    getitem (argsort a) k = Ok i /\
    getitem a i = Ok x /\ 0 <= i < len a.
Proof.
  intros [Hk Hlt]. unfold len in Hlt.
  destruct (sorted_nth a (Z.to_nat k)) as [x [i [Hx [Hi [Hget Hr]]]]]; [lia |].
  exists x, i. rewrite <- (Z2Nat.id k Hk).
  repeat split; try (apply getitem_nat; assumption); try assumption; lia.
Qed.

Lemma sorted_values_mono (a : list Q) (j k : Z) (x y : Q) :
  0 <= j <= k ->
  getitem (sorted_values a) j = Ok x ->
  getitem (sorted_values a) k = Ok y ->
  (x <= y)%Q.
Proof.
  intros Hjk Hx Hy.
  apply getitem_nonneg in Hx; [| lia]. apply getitem_nonneg in Hy; [| lia].
  apply (StronglySorted_nth _ (sorted_values_sorted a) (Z.to_nat j) (Z.to_nat k));
    [lia | apply Hx | apply Hy].
Qed.

(** Every element of the array occurs in the sorted array. *)
Lemma element_sorted_position (a : list Q) (j : Z) (y : Q) :
  getitem a j = Ok y ->
  exists k, 0 <= k < len a /\ getitem (sorted_values a) k = Ok y.
Proof.
  intro H. apply getitem_Ok_position in H. destruct H as [n [_ Hn]].
  apply nth_error_In in Hn.
  apply (Permutation_in _ (sorted_values_perm a)) in Hn.
  apply In_nth_error in Hn. destruct Hn as [k Hk].
  exists (Z.of_nat k). split.
  - assert (k < length (sorted_values a))%nat by (apply nth_error_Some; congruence).
    pose proof (sorted_values_len a) as Hl. unfold len in *. lia.
  - apply getitem_nat, Hk.
Qed.

(** ** Distances *)

Lemma dist_below (x v : Q) : (x <= v)%Q -> (Qabs (x - v) == v - x)%Q.
Proof. intro H. rewrite Qabs_neg; lra. Qed.

Lemma dist_above (x v : Q) : (v <= x)%Q -> (Qabs (x - v) == x - v)%Q.
Proof. intro H. rewrite Qabs_pos; lra. Qed.

(** With [lo < v <= hi] and nothing strictly between [lo] and [hi], the
    comparison of the source picks a value that no [y] beats. *)
Lemma nearest_of_two (lo hi v y : Q) :
  (lo < v)%Q -> (v <= hi)%Q -> (y <= lo \/ hi <= y)%Q ->
  let chosen := if Qlt_bool (Qabs (v - lo)) (Qabs (v - hi)) then lo else hi in
  ~ (Qabs (y - v) < Qabs (chosen - v))%Q.
Proof.
  intros Hlo Hhi Hy chosen. subst chosen.
  destruct (Qlt_bool (Qabs (v - lo)) (Qabs (v - hi))) eqn:C.
  - apply Qlt_bool_iff in C.
    rewrite (Qabs_Qminus v lo), (Qabs_Qminus v hi) in C.
    rewrite (dist_below lo v), (dist_above hi v) in C by lra.
    rewrite (dist_below lo v) by lra.
    destruct Hy as [Hy | Hy].
    + rewrite (dist_below y v) by lra. lra.
    + rewrite (dist_above y v) by lra. lra.
  - apply Qlt_bool_false_iff in C.
    rewrite (Qabs_Qminus v lo), (Qabs_Qminus v hi) in C.
    rewrite (dist_below lo v), (dist_above hi v) in C by lra.
    rewrite (dist_above hi v) by lra.
    destruct Hy as [Hy | Hy].
    + rewrite (dist_below y v) by lra. lra.
    + rewrite (dist_above y v) by lra. lra.
Qed.

(** ** Machine distances *)

Lemma Qlt_bool_comp (x x' y y' : Q) :
  (x == x')%Q -> (y == y')%Q -> Qlt_bool x y = Qlt_bool x' y'.
Proof.
  intros Hx Hy. destruct (Qlt_bool x' y') eqn:E.
  - apply Qlt_bool_iff. apply Qlt_bool_iff in E. rewrite Hx, Hy. exact E.
  - apply Qlt_bool_false_iff. apply Qlt_bool_false_iff in E. rewrite Hx, Hy. exact E.
Qed.

Lemma round64_comp (x y : Q) : (x == y)%Q -> round64 x = round64 y.
Proof. intro H. unfold round64. rewrite (Qred_complete x y H). reflexivity. Qed.

(** The machine operations give equal results on equal numbers. *)
Lemma distance_comp (dt : dtype) (v v' x x' : Q) :
  (v == v')%Q -> (x == x')%Q -> distance dt v x = distance dt v' x'.
Proof.
  intros Hv Hx. assert (Hd : (v - x == v' - x')%Q) by (rewrite Hv, Hx; reflexivity).
  unfold distance, subtract, absolute. destruct dt.
  - rewrite (Qfloor_comp _ _ Hd). reflexivity.
  - rewrite (round64_comp _ _ Hd). reflexivity.
Qed.

(** The distance of a number from itself is computed as 0. *)
Lemma distance_self (dt : dtype) (v x : Q) :
  (x == v)%Q -> (distance dt v x == 0)%Q.
Proof.
  intro H. rewrite (distance_comp dt v v x v (Qeq_refl v) H).
  assert (Hz : (v - v == 0)%Q) by ring.
  unfold distance, subtract, absolute. destruct dt.
  - rewrite (Qfloor_comp _ _ Hz). reflexivity.
  - rewrite (round64_comp _ _ Hz). reflexivity.
Qed.

(** A float64 distance is never negative. *)
Lemma distance_float64_nonneg (v x : Q) : (0 <= distance float64 v x)%Q.
Proof. unfold distance, absolute. apply Qabs_nonneg. Qed.

Lemma getitem_In {A : Type} (l : list A) (i : Z) (x : A) :
  getitem l i = Ok x -> In x l.
Proof.
  intro H. apply getitem_Ok_position in H. destruct H as [n [_ Hn]].
  eapply nth_error_In, Hn.
Qed.

(** ** The body of [find_nearest_index] *)

Lemma find_nearest_index_unfold (dt : dtype) (a : list Q) (v : Q) :
  find_nearest_index dt a v =
  let idx := searchsorted_left (sorted_values a) v in
  if len a <=? idx then getitem (argsort a) (len a - 1)
  else if idx =? 0 then getitem (argsort a) 0
  else
    before <- getitem (sorted_values a) (idx - 1) ;;
    at_idx <- getitem (sorted_values a) idx ;;
    if Qlt_bool (distance dt v before) (distance dt v at_idx)
    then getitem (argsort a) (idx - 1)
    else getitem (argsort a) idx.
Proof. unfold find_nearest_index. rewrite take_argsort. reflexivity. Qed.

Lemma searchsorted_range (a : list Q) (v : Q) :
  0 <= searchsorted_left (sorted_values a) v <= len a.
Proof.
  destruct (searchsorted_left_spec _ v (sorted_values_sorted a)) as [H _].
  rewrite sorted_values_len in H. exact H.
Qed.

(** The index returned for a non-empty array is always a position of it. *)
Lemma find_nearest_index_Ok (dt : dtype) (a : list Q) (v : Q) :
  a <> [] -> exists i, find_nearest_index dt a v = Ok i /\ 0 <= i < len a.
Proof.
  intro Hne. pose proof (len_pos a Hne) as Hpos.
  pose proof (searchsorted_range a v) as Hp.
  rewrite find_nearest_index_unfold. cbv zeta.
  set (p := searchsorted_left (sorted_values a) v) in *.
  destruct (Z.leb_spec (len a) p) as [Hge | Hlt].
  - destruct (sorted_at a (len a - 1)) as [x [i [_ [Hi [_ Hr]]]]]; [lia |].
    exists i. split; assumption.
  - destruct (Z.eqb_spec p 0) as [Hz | Hnz].
    + destruct (sorted_at a 0) as [x [i [_ [Hi [_ Hr]]]]]; [lia |].
      exists i. split; assumption.
    + destruct (sorted_at a (p - 1)) as [x [i [Hx [Hi [_ Hr]]]]]; [lia |].
      destruct (sorted_at a p) as [y [k [Hy [Hk [_ Hr']]]]]; [lia |].
      rewrite Hx, Hy. cbn [bind].
      destruct (Qlt_bool _ _); [exists i | exists k]; split; assumption.
Qed.

(** The three branches of [find_nearest_index], read off at the leftmost
    insertion point [p] of the value in the sorted array. *)
Lemma find_nearest_index_cases (dt : dtype) (a : list Q) (v : Q) (p : Z) :
  a <> [] ->
  leftmost_insertion_point (sorted_values a) v p ->
  (p = len a /\
   exists i x,
     find_nearest_index dt a v = Ok i /\
     getitem (argsort a) (len a - 1) = Ok i /\
     getitem (sorted_values a) (len a - 1) = Ok x /\
     getitem a i = Ok x /\ 0 <= i < len a) \/
  (p = 0 /\
   exists i x,
     find_nearest_index dt a v = Ok i /\
     getitem (argsort a) 0 = Ok i /\
     getitem (sorted_values a) 0 = Ok x /\
     getitem a i = Ok x /\ 0 <= i < len a) \/
  (0 < p < len a /\
   exists i k lo hi,
     getitem (argsort a) (p - 1) = Ok i /\
     getitem (argsort a) p = Ok k /\
     getitem (sorted_values a) (p - 1) = Ok lo /\
     getitem (sorted_values a) p = Ok hi /\
     getitem a i = Ok lo /\ getitem a k = Ok hi /\
     0 <= i < len a /\ 0 <= k < len a /\
     find_nearest_index dt a v =
       Ok (if Qlt_bool (distance dt v lo) (distance dt v hi) then i else k)).
Proof.
  intros Hne Hp. pose proof (len_pos a Hne) as Hpos.
  pose proof (insertion_point_is_searchsorted a v p Hp) as Hs.
  destruct Hp as [Hr _]. rewrite sorted_values_len in Hr.
  rewrite find_nearest_index_unfold, Hs. cbv zeta.
  destruct (Z.leb_spec (len a) p) as [Hge | Hlt].
  - left. split; [lia |].
    destruct (sorted_at a (len a - 1)) as [x [i [Hx [Hi [Hg Hir]]]]]; [lia |].
    exists i, x. repeat split; try assumption; lia.
  - destruct (Z.eqb_spec p 0) as [Hz | Hnz].
    + right. left. split; [exact Hz |].
      destruct (sorted_at a 0) as [x [i [Hx [Hi [Hg Hir]]]]]; [lia |].
      exists i, x. repeat split; try assumption; lia.
    + right. right. split; [lia |].
      destruct (sorted_at a (p - 1)) as [lo [i [Hlo [Hi [Hgi Hir]]]]]; [lia |].
      destruct (sorted_at a p) as [hi [k [Hhi [Hk [Hgk Hkr]]]]]; [lia |].
      exists i, k, lo, hi. rewrite Hlo, Hhi. cbn [bind].
      repeat split; try assumption; try lia.
      destruct (Qlt_bool _ _); assumption.
Qed.

(** The comparison of the source on two exact distances. *)
Lemma exact_comparison (dt : dtype) (v lo hi : Q) :
  exact_distance dt v lo -> exact_distance dt v hi ->
  Qlt_bool (distance dt v lo) (distance dt v hi)
  = Qlt_bool (Qabs (v - lo)) (Qabs (v - hi)).
Proof. intros Hlo Hhi. apply Qlt_bool_comp; assumption. Qed.

(** When every distance is computed exactly, the returned position holds
    a value that no element of the array is strictly closer to [v] than. *)
Lemma find_nearest_index_closest (dt : dtype) (a : list Q) (v : Q) :
  a <> [] ->
  (forall x, In x a -> exact_distance dt v x) ->
  exists i x,
    find_nearest_index dt a v = Ok i /\ 0 <= i < len a /\ getitem a i = Ok x /\
    forall j y, getitem a j = Ok y -> ~ (Qabs (y - v) < Qabs (x - v))%Q.
Proof.
  intros Hne Hexact.
  pose proof (searchsorted_left_spec _ v (sorted_values_sorted a)) as Hp.
  set (p := searchsorted_left (sorted_values a) v) in *.
  pose proof Hp as [Hr [Hbelow Habove]]. rewrite sorted_values_len in Hr, Habove.
  destruct (find_nearest_index_cases dt a v p Hne Hp)
    as [[Hpe [i [x [Hf [_ [Hx [Hg Hir]]]]]]]
       | [[Hpe [i [x [Hf [_ [Hx [Hg Hir]]]]]]]
         | [Hpi [i [k [lo [hi [_ [_ [Hlo [Hhi [Hgi [Hgk [Hir [Hkr Hf]]]]]]]]]]]]]]].
  - exists i, x. repeat split; try assumption; try lia.
    intros j y Hy. destruct (element_sorted_position a j y Hy) as [m [Hm Hym]].
    assert (Hxv : (x < v)%Q) by (apply (Hbelow (len a - 1)); [lia | exact Hx]).
    assert (Hyx : (y <= x)%Q)
      by (apply (sorted_values_mono a m (len a - 1)); [lia | exact Hym | exact Hx]).
    rewrite (dist_below y v), (dist_below x v) by lra. lra.
  - exists i, x. repeat split; try assumption; try lia.
    intros j y Hy. destruct (element_sorted_position a j y Hy) as [m [Hm Hym]].
    assert (Hxv : (v <= x)%Q) by (apply (Habove 0); [lia | exact Hx]).
    assert (Hyx : (x <= y)%Q)
      by (apply (sorted_values_mono a 0 m); [lia | exact Hx | exact Hym]).
    rewrite (dist_above y v), (dist_above x v) by lra. lra.
  - assert (Hlov : (lo < v)%Q) by (apply (Hbelow (p - 1)); [lia | exact Hlo]).
    assert (Hhiv : (v <= hi)%Q) by (apply (Habove p); [lia | exact Hhi]).
    assert (Hall : forall j y, getitem a j = Ok y -> (y <= lo \/ hi <= y)%Q).
    { intros j y Hy. destruct (element_sorted_position a j y Hy) as [m [Hm Hym]].
      destruct (Z_lt_le_dec m p) as [Hmp | Hmp].
      - left. apply (sorted_values_mono a m (p - 1)); [lia | exact Hym | exact Hlo].
      - right. apply (sorted_values_mono a p m); [lia | exact Hhi | exact Hym]. }
    pose proof (fun j y (Hy : getitem a j = Ok y) =>
                  nearest_of_two lo hi v y Hlov Hhiv (Hall j y Hy)) as Hn.
    cbv zeta in Hn.
    rewrite (exact_comparison dt v lo hi
               (Hexact lo (getitem_In _ _ _ Hgi)) (Hexact hi (getitem_In _ _ _ Hgk)))
      in Hf.
    destruct (Qlt_bool (Qabs (v - lo)) (Qabs (v - hi))).
    + exists i, lo. repeat split; try assumption; try lia.
    + exists k, hi. repeat split; try assumption; try lia.
Qed.

(** * The specified properties *)





(** C4, as the code has it: for a value of the element type, when the
    leftmost insertion point [p] is strictly inside the sorted array,
    [find_nearest_index] compares the
    two distances as computed: it returns the original position of the
    element just before [p] if the computed [abs(value - before)] is
    strictly less than the computed [abs(value - at_p)], and otherwise,
    also when the two are equal, the original position of the element at
    [p].  When both are computed exactly these are the distances of the
    two elements from the value. *)
Theorem find_nearest_index_interior (dt : dtype) (array : list Q) (value : Q)
  (p : Z) :
  is_dtype dt value = true ->
  leftmost_insertion_point (sorted_values array) value p ->
  0 < p < len array ->
  exists i k before at_p,
    getitem (sorted_values array) (p - 1) = Ok before /\
    getitem (sorted_values array) p = Ok at_p /\
    getitem (argsort array) (p - 1) = Ok i /\
    getitem (argsort array) p = Ok k /\
    getitem array i = Ok before /\
    getitem array k = Ok at_p /\
    ((distance dt value before < distance dt value at_p)%Q ->
     find_nearest_index dt array value = Ok i) /\
    (~ (distance dt value before < distance dt value at_p)%Q ->
     find_nearest_index dt array value = Ok k) /\
    ((distance dt value before == distance dt value at_p)%Q ->
     find_nearest_index dt array value = Ok k) /\
    (exact_distance dt value before -> exact_distance dt value at_p ->
     ((Qabs (value - before) < Qabs (value - at_p))%Q ->
      find_nearest_index dt array value = Ok i) /\
     (~ (Qabs (value - before) < Qabs (value - at_p))%Q ->
      find_nearest_index dt array value = Ok k) /\
     ((Qabs (value - before) == Qabs (value - at_p))%Q ->
      find_nearest_index dt array value = Ok k)).
Proof.
  intros _ Hp Hin.
  assert (Hne : array <> []).
  { intro E. subst array. unfold len in Hin. simpl in Hin. lia. }
  destruct (find_nearest_index_cases dt array value p Hne Hp)
    as [[Hpe _] | [[Hpe _]
       | [_ [i [k [lo [hi [Hi [Hk [Hlo [Hhi [Hgi [Hgk [_ [_ Hf]]]]]]]]]]]]]]];
    [lia | lia |].
  exists i, k, lo, hi.
  assert (Hlt : (distance dt value lo < distance dt value hi)%Q ->
                find_nearest_index dt array value = Ok i).
  { intro H. apply Qlt_bool_iff in H. rewrite H in Hf. exact Hf. }
  assert (Hge : ~ (distance dt value lo < distance dt value hi)%Q ->
                find_nearest_index dt array value = Ok k).
  { intro H. destruct (Qlt_bool _ _) eqn:C; [| exact Hf].
    apply Qlt_bool_iff in C. contradiction. }
  assert (Heq : (distance dt value lo == distance dt value hi)%Q ->
                find_nearest_index dt array value = Ok k).
  { intro H. apply Hge. rewrite H. apply Qlt_irrefl. }
  do 9 (split; [assumption |]).
  intros Hel Heh. unfold exact_distance in Hel, Heh.
  split; [| split].
  - intro H. apply Hlt. rewrite Hel, Heh. exact H.
  - intro H. apply Hge. rewrite Hel, Heh. exact H.
  - intro H. apply Heq. rewrite Hel, Heh. exact H.
Qed.

(** C4 fails as stated.  On the float64 array [[0.5, 2^54]] with value
    [2^53] the insertion point 1 is strictly inside and the element
    before it is strictly closer to the value, yet the position of the
    element at the insertion point is returned, not position 0. *)
Lemma find_nearest_index_interior_counterexample :
  forallb (is_dtype float64) [1#2; inject_Z (2 ^ 54); inject_Z (2 ^ 53)] = true /\
  leftmost_insertion_point
    (sorted_values [1#2; inject_Z (2 ^ 54)]) (inject_Z (2 ^ 53)) 1 /\
  0 < 1 < len [1#2; inject_Z (2 ^ 54)] /\
  getitem (sorted_values [1#2; inject_Z (2 ^ 54)]) (1 - 1) = Ok (1#2) /\
  getitem (sorted_values [1#2; inject_Z (2 ^ 54)]) 1 = Ok (inject_Z (2 ^ 54)) /\
  getitem (argsort [1#2; inject_Z (2 ^ 54)]) (1 - 1) = Ok 0 /\
  getitem (argsort [1#2; inject_Z (2 ^ 54)]) 1 = Ok 1 /\
  (Qabs (inject_Z (2 ^ 53) - (1#2))
   < Qabs (inject_Z (2 ^ 53) - inject_Z (2 ^ 54)))%Q /\
  find_nearest_index float64 [1#2; inject_Z (2 ^ 54)] (inject_Z (2 ^ 53)) = Ok 1 /\
  find_nearest_index float64 [1#2; inject_Z (2 ^ 54)] (inject_Z (2 ^ 53)) <> Ok 0.
Proof.
  split; [vm_compute; reflexivity |]. split.
  - change 1 with (searchsorted_left (sorted_values [1#2; inject_Z (2 ^ 54)])
                     (inject_Z (2 ^ 53))) at 1.
    apply searchsorted_left_spec, sorted_values_sorted.
  - repeat split; try (vm_compute; reflexivity).
    vm_compute. discriminate.
Qed.

(** C6: when the leftmost insertion point is at or beyond the end of the
    array, [find_nearest_index] returns the original position of the
    largest element (the last sorted position); when it is 0, the original
    position of the smallest element (the first sorted position). *)
Theorem find_nearest_index_edges (dt : dtype) (array : list Q) (value : Q)
  (p : Z) :
  array <> [] ->
  leftmost_insertion_point (sorted_values array) value p ->
  (len array <= p ->
   exists i x,
     find_nearest_index dt array value = Ok i /\
     getitem (argsort array) (len array - 1) = Ok i /\
     getitem array i = Ok x /\
     forall j y, getitem array j = Ok y -> (y <= x)%Q) /\
  (p = 0 ->
   exists i x,
     find_nearest_index dt array value = Ok i /\
     getitem (argsort array) 0 = Ok i /\
     getitem array i = Ok x /\
     forall j y, getitem array j = Ok y -> (x <= y)%Q).
Proof.
  intros Hne Hp. pose proof (len_pos array Hne) as Hpos.
  destruct (find_nearest_index_cases dt array value p Hne Hp)
    as [[Hpe [i [x [Hf [Hi [Hx [Hg _]]]]]]]
       | [[Hpe [i [x [Hf [Hi [Hx [Hg _]]]]]]] | [Hpi _]]].
  - split; [| lia]. intros _. exists i, x. repeat split; try assumption.
    intros j y Hy. destruct (element_sorted_position array j y Hy) as [m [Hm Hym]].
    apply (sorted_values_mono array m (len array - 1)); [lia | exact Hym | exact Hx].
  - split; [lia |]. intros _. exists i, x. repeat split; try assumption.
    intros j y Hy. destruct (element_sorted_position array j y Hy) as [m [Hm Hym]].
    apply (sorted_values_mono array 0 m); [lia | exact Hx | exact Hym].
  - split; intro; lia.
Qed.

(** C7, as the code has it: when the value, a number of the element
    type, equals some element of the array exactly,
    [find_nearest_index] returns a position holding that value,
    provided that, for an int64 array, no computed distance
    [abs(value - x)] is negative.  A float64 distance never is; an int64
    one is when [value - x] wraps around to [-2^63]. *)
Theorem find_nearest_index_exact (dt : dtype) (array : list Q) (value : Q)
  (k : Z) (x : Q) :
  is_dtype dt value = true ->
  getitem array k = Ok x ->
  (x == value)%Q ->
  (dt = int64 -> forall y, In y array -> (0 <= distance dt value y)%Q) ->
  exists m y,
    find_nearest_index dt array value = Ok m /\
    getitem array m = Ok y /\
    (y == value)%Q.
Proof.
  intros _ Hk Hx Hnonneg.
  assert (Hne : array <> []).
  { intro E. subst array. rewrite getitem_nil in Hk. discriminate. }
  assert (Hpos : forall y, In y array -> (0 <= distance dt value y)%Q).
  { destruct dt; [apply Hnonneg; reflexivity |].
    intros y _. apply distance_float64_nonneg. }
  pose proof (searchsorted_left_spec _ value (sorted_values_sorted array)) as Hp.
  set (p := searchsorted_left (sorted_values array) value) in *.
  pose proof Hp as [Hr [Hbelow Habove]]. rewrite sorted_values_len in Hr, Habove.
  destruct (element_sorted_position array k x Hk) as [m [Hm Hxm]].
  assert (Hpm : p <= m).
  { destruct (Z_lt_le_dec m p) as [Hlt | Hge]; [| exact Hge].
    exfalso. assert (Hxv : (x < value)%Q) by (apply (Hbelow m); [lia | exact Hxm]).
    rewrite Hx in Hxv. apply (Qlt_irrefl _ Hxv). }
  assert (Hat : forall hi, getitem (sorted_values array) p = Ok hi -> (hi == value)%Q).
  { intros hi Hhi. apply Qle_antisym.
    - rewrite <- Hx. apply (sorted_values_mono array p m); [lia | exact Hhi | exact Hxm].
    - apply (Habove p); [lia | exact Hhi]. }
  destruct (find_nearest_index_cases dt array value p Hne Hp)
    as [[Hpe _]
       | [[Hpe [i [y [Hf [_ [Hy [Hg _]]]]]]]
         | [Hpi [i [j [lo [hi [_ [_ [Hlo [Hhi [Hgi [Hgj [_ [_ Hf]]]]]]]]]]]]]]].
  - lia.
  - exists i, y. repeat split; try assumption.
    apply Hat. rewrite Hpe. exact Hy.
  - exists j, hi.
    assert (Hhv : (hi == value)%Q) by (apply Hat, Hhi).
    assert (Hc : Qlt_bool (distance dt value lo) (distance dt value hi) = false).
    { apply Qlt_bool_false_iff. rewrite (distance_self dt value hi Hhv).
      apply Hpos. apply (getitem_In _ _ _ Hgi). }
    rewrite Hc in Hf. repeat split; assumption.
Qed.

(** C7 fails as stated.  On the int64 array [[-2^63, 0]] the value 0 is
    the element at position 1, but [0 - (-2^63)] wraps around to [-2^63],
    whose [abs] is [-2^63], less than the distance 0 of the match, and
    position 0 is returned. *)
Lemma find_nearest_index_exact_counterexample :
  forallb (is_dtype int64) [inject_Z (- 2 ^ 63); 0%Q] = true /\
  getitem [inject_Z (- 2 ^ 63); 0%Q] 1 = Ok 0%Q /\
  find_nearest_index int64 [inject_Z (- 2 ^ 63); 0%Q] 0 = Ok 0 /\
  getitem [inject_Z (- 2 ^ 63); 0%Q] 0 = Ok (inject_Z (- 2 ^ 63)) /\
  ~ (inject_Z (- 2 ^ 63) == 0)%Q.
Proof.
  repeat split; try (vm_compute; reflexivity).
  intro H. vm_compute in H. discriminate.
Qed.

(** C8: on [array = [10, 1, 7, 3, 9]], [find_nearest_index(array, 6)] is 2
    and [get_neighbors_index(array, 6, 3)] is the range [1, 4). *)
Theorem worked_example (dt : dtype) :
  find_nearest_index dt example_array (6#1) = Ok 2 /\
  get_neighbors_index dt example_array (6#1) 3 = Ok (Slice 1 4).
Proof. destruct dt; split; vm_compute; reflexivity. Qed.

(** ** Windows *)

(** For a non-empty array the window is computed from a position of the
    array and returned without any check on [num_neighbors]. *)
Lemma get_neighbors_index_Ok (dt : dtype) (a : list Q) (c : Q) (k : Z) :
  a <> [] ->
  exists idx,
    find_nearest_index dt a c = Ok idx /\ 0 <= idx < len a /\
    get_neighbors_index dt a c k =
      Ok (Slice (Z.min (len a) (Z.max 0 (idx - (k - 1) / 2) + k) - k)
                (Z.min (len a) (Z.max 0 (idx - (k - 1) / 2) + k))).
Proof.
  intro Hne. destruct (find_nearest_index_Ok dt a c Hne) as [idx [Hf Hr]].
  exists idx. repeat split; try assumption; try lia.
  unfold get_neighbors_index. rewrite Hf. reflexivity.
Qed.

Lemma find_nearest_index_nil (dt : dtype) (v : Q) :
  find_nearest_index dt [] v = Raise IndexError.
Proof. reflexivity. Qed.

Lemma example_array_nonempty : example_array <> [].
Proof. unfold example_array. discriminate. Qed.

Lemma example_insertion_point (v : Q) :
  leftmost_insertion_point (sorted_values example_array) v
    (searchsorted_left (sorted_values example_array) v).
Proof. apply searchsorted_left_spec, sorted_values_sorted. Qed.

Lemma find_nearest_index_interior_witness :
  exists i k before at_p,
    getitem (sorted_values example_array) (2 - 1) = Ok before /\
    getitem (sorted_values example_array) 2 = Ok at_p /\
    getitem (argsort example_array) (2 - 1) = Ok i /\
    getitem (argsort example_array) 2 = Ok k /\
    getitem example_array i = Ok before /\
    getitem example_array k = Ok at_p /\
    ((distance float64 (6#1) before < distance float64 (6#1) at_p)%Q ->
     find_nearest_index float64 example_array (6#1) = Ok i) /\
    (~ (distance float64 (6#1) before < distance float64 (6#1) at_p)%Q ->
     find_nearest_index float64 example_array (6#1) = Ok k) /\
    ((distance float64 (6#1) before == distance float64 (6#1) at_p)%Q ->
     find_nearest_index float64 example_array (6#1) = Ok k) /\
    (exact_distance float64 (6#1) before -> exact_distance float64 (6#1) at_p ->
     ((Qabs ((6#1) - before) < Qabs ((6#1) - at_p))%Q ->
      find_nearest_index float64 example_array (6#1) = Ok i) /\
     (~ (Qabs ((6#1) - before) < Qabs ((6#1) - at_p))%Q ->
      find_nearest_index float64 example_array (6#1) = Ok k) /\
     ((Qabs ((6#1) - before) == Qabs ((6#1) - at_p))%Q ->
      find_nearest_index float64 example_array (6#1) = Ok k)).
Proof.
  apply (find_nearest_index_interior float64 example_array (6#1) 2).
  - vm_compute. reflexivity.
  - exact (example_insertion_point (6#1)).
  - vm_compute. split; reflexivity.
Defined.

Lemma find_nearest_index_edges_witness :
  (exists i x,
     find_nearest_index float64 example_array (11#1) = Ok i /\
     getitem (argsort example_array) (len example_array - 1) = Ok i /\
     getitem example_array i = Ok x /\
     forall j y, getitem example_array j = Ok y -> (y <= x)%Q) /\
  (exists i x,
     find_nearest_index float64 example_array (0#1) = Ok i /\
     getitem (argsort example_array) 0 = Ok i /\
     getitem example_array i = Ok x /\
     forall j y, getitem example_array j = Ok y -> (x <= y)%Q).
Proof.
  split.
  - apply (find_nearest_index_edges float64 example_array (11#1) 5
             example_array_nonempty (example_insertion_point (11#1))).
    vm_compute. discriminate.
  - apply (find_nearest_index_edges float64 example_array (0#1) 0
             example_array_nonempty (example_insertion_point (0#1))).
    reflexivity.
Defined.

Lemma find_nearest_index_exact_witness :
  exists m y,
    find_nearest_index int64 example_array (7#1) = Ok m /\
    getitem example_array m = Ok y /\
    (y == 7#1)%Q.
Proof.
  apply (find_nearest_index_exact int64 example_array (7#1) 2 (7#1)).
  - vm_compute. reflexivity.
  - reflexivity.
  - reflexivity.
  - intros _ y Hin. unfold example_array in Hin. simpl in Hin.
    destruct Hin as [H | [H | [H | [H | [H | []]]]]]; subst y;
      vm_compute; discriminate.
Defined.

(** C3: for a non-empty array and [1 <= num_neighbors <= len(array)] the
    returned range [start, stop) has exactly [num_neighbors] positions and
    lies within [0, len(array)). *)
Theorem get_neighbors_index_window (dt : dtype) (array : list Q)
  (central : Q) (num_neighbors : Z) :
  array <> [] ->
  1 <= num_neighbors <= len array ->
  exists s,
    get_neighbors_index dt array central num_neighbors = Ok s /\
    stop s - start s = num_neighbors /\
    0 <= start s /\
    stop s <= len array.
Proof.
  intros Hne Hk.
  destruct (get_neighbors_index_Ok dt array central num_neighbors Hne)
    as [idx [_ [Hr Hg]]].
  eexists. split; [exact Hg |]. simpl. lia.
Qed.

Lemma get_neighbors_index_window_witness :
  exists s,
    get_neighbors_index float64 example_array (6#1) 3 = Ok s /\
    stop s - start s = 3 /\
    0 <= start s /\
    stop s <= len example_array.
Proof.
  apply (get_neighbors_index_window float64 example_array (6#1) 3 example_array_nonempty).
  vm_compute. split; discriminate.
Defined.

(** C10: for a non-empty array and [1 <= num_neighbors <= len(array)] the
    nearest position lies inside the returned range. *)
Theorem get_neighbors_index_contains_nearest (dt : dtype) (array : list Q)
  (central : Q) (num_neighbors : Z) :
  array <> [] ->
  1 <= num_neighbors <= len array ->
  exists idx s,
    find_nearest_index dt array central = Ok idx /\
    get_neighbors_index dt array central num_neighbors = Ok s /\
    start s <= idx < stop s.
Proof.
  intros Hne Hk.
  destruct (get_neighbors_index_Ok dt array central num_neighbors Hne)
    as [idx [Hf [Hr Hg]]].
  exists idx. eexists. split; [exact Hf |]. split; [exact Hg |]. simpl.
  assert (Hh : 0 <= (num_neighbors - 1) / 2) by (apply Z.div_pos; lia).
  assert (Hh2 : 2 * ((num_neighbors - 1) / 2) <= num_neighbors - 1)
    by (apply Z.mul_div_le; lia).
  lia.
Qed.

Lemma get_neighbors_index_contains_nearest_witness :
  exists idx s,
    find_nearest_index float64 example_array (6#1) = Ok idx /\
    get_neighbors_index float64 example_array (6#1) 3 = Ok s /\
    start s <= idx < stop s.
Proof.
  apply (get_neighbors_index_contains_nearest float64 example_array (6#1) 3
           example_array_nonempty).
  vm_compute. split; discriminate.
Defined.

(** C5: for a non-empty array [get_neighbors_index] returns exactly the
    range of the recipe: with [idx] the nearest position,
    [start = max(0, idx - (num_neighbors - 1) // 2)],
    [end = min(len(array), start + num_neighbors)], then
    [start = end - num_neighbors]. *)
Theorem get_neighbors_index_recipe (dt : dtype) (array : list Q)
  (central : Q) (num_neighbors : Z) :
  array <> [] ->
  exists idx s,
    find_nearest_index dt array central = Ok idx /\
    get_neighbors_index dt array central num_neighbors = Ok s /\
    window_recipe (len array) idx num_neighbors s /\
    forall s', window_recipe (len array) idx num_neighbors s' -> s' = s.
Proof.
  intro Hne.
  destruct (get_neighbors_index_Ok dt array central num_neighbors Hne)
    as [idx [Hf [Hr Hg]]].
  exists idx. eexists. split; [exact Hf |]. split; [exact Hg |].
  pose proof (Z.div_mod (num_neighbors - 1) 2 ltac:(lia)) as Hdm.
  pose proof (Z.mod_pos_bound (num_neighbors - 1) 2 ltac:(lia)) as Hmb.
  split.
  - exists ((num_neighbors - 1) / 2), (Z.max 0 (idx - (num_neighbors - 1) / 2)).
    cbn [start stop]. repeat split; lia.
  - intros [st en] [half [start0 [Hhalf [Hs0 [Hen Hst]]]]]. cbn [start stop] in *.
    assert (half = (num_neighbors - 1) / 2) by lia. subst half start0.
    subst en. subst st. reflexivity.
Qed.

Lemma get_neighbors_index_recipe_witness :
  exists idx s,
    find_nearest_index float64 example_array (6#1) = Ok idx /\
    get_neighbors_index float64 example_array (6#1) 3 = Ok s /\
    window_recipe (len example_array) idx 3 s /\
    forall s', window_recipe (len example_array) idx 3 s' -> s' = s.
Proof.
  apply (get_neighbors_index_recipe float64 example_array (6#1) 3 example_array_nonempty).
Defined.

(** C2, as the code has it: [get_neighbors_index] validates nothing.  With
    an empty array it raises the [IndexError] of the lookup; with a
    non-empty array it returns a range for every [num_neighbors], of
    signed length [num_neighbors], which for [num_neighbors > len(array)]
    is [len(array) - num_neighbors, len(array)) with a negative start. *)
Theorem get_neighbors_index_unvalidated (dt : dtype) (array : list Q)
  (central : Q) (num_neighbors : Z) :
  num_neighbors > len array \/ num_neighbors <= 0 \/ array = [] ->
  (array = [] /\
   get_neighbors_index dt array central num_neighbors = Raise IndexError) \/
  (array <> [] /\
   exists s,
     get_neighbors_index dt array central num_neighbors = Ok s /\
     stop s - start s = num_neighbors /\
     (num_neighbors > len array -> start s < 0 /\ stop s = len array)).
Proof.
  intros _. destruct array as [| x array].
  - left. split; reflexivity.
  - right. assert (Hne : x :: array <> []) by discriminate.
    split; [exact Hne |].
    destruct (get_neighbors_index_Ok dt (x :: array) central num_neighbors Hne)
      as [idx [_ [Hr Hg]]].
    eexists. split; [exact Hg |]. cbn [start stop]. split; [lia |].
    intro Hk.
    assert (Hh : 0 <= (num_neighbors - 1) / 2) by (apply Z.div_pos; lia).
    lia.
Qed.

Lemma get_neighbors_index_unvalidated_witness :
  (2 > len [1#1] \/ 2 <= 0 \/ [1#1] = []) /\
  ((([1#1] : list Q) = [] /\
    get_neighbors_index float64 [1#1] (1#1) 2 = Raise IndexError) \/
   (([1#1] : list Q) <> [] /\
    exists s,
      get_neighbors_index float64 [1#1] (1#1) 2 = Ok s /\
      stop s - start s = 2 /\
      (2 > len [1#1] -> start s < 0 /\ stop s = len [1#1]))).
Proof.
  assert (H : 2 > len [1#1] \/ 2 <= 0 \/ [1#1] = [])
    by (left; vm_compute; reflexivity).
  split; [exact H | apply (get_neighbors_index_unvalidated float64 [1#1] (1#1) 2 H)].
Defined.

(** C2 fails as stated: with [num_neighbors] greater than the length, or
    not positive, and a non-empty array, a range is returned and nothing
    is raised. *)
Lemma get_neighbors_index_validation_counterexample :
  (2 > len [1#1] /\
   get_neighbors_index float64 [1#1] (1#1) 2 = Ok (Slice (-1) 1) /\
   ~ exists e, get_neighbors_index float64 [1#1] (1#1) 2 = Raise e) /\
  (0 <= 0 /\
   get_neighbors_index float64 [1#1] (1#1) 0 = Ok (Slice 1 1) /\
   ~ exists e, get_neighbors_index float64 [1#1] (1#1) 0 = Raise e).
Proof.
  split; (split; [vm_compute; try reflexivity; discriminate |]);
    (split; [vm_compute; reflexivity |]); intros [e H]; vm_compute in H;
    discriminate.
Qed.

(** ** The store *)

Lemma store_old (st extra : Heap.store) (r : Heap.ref) (c : Heap.ndarray) :
  nth_error st r = Some c -> nth_error (st ++ extra) r = Some c.
Proof.
  intro H. rewrite nth_error_app1; [exact H |].
  apply nth_error_Some. congruence.
Qed.

Lemma store_new (st extra : Heap.store) (c : Heap.ndarray) :
  nth_error ((st ++ [c]) ++ extra) (length st) = Some c.
Proof.
  apply store_old. rewrite nth_error_app2 by lia.
  rewrite Nat.sub_diag. reflexivity.
Qed.

Lemma read_data_at (st : Heap.store) (r : Heap.ref) (d : list Q) :
  nth_error st r = Some (Heap.DataArray d) ->
  Heap.read_data r st = Some (Ok d, st).
Proof. intro H. unfold Heap.read_data. rewrite H. reflexivity. Qed.

Lemma read_int_at (st : Heap.store) (r : Heap.ref) (d : list Z) :
  nth_error st r = Some (Heap.IntArray d) ->
  Heap.read_int r st = Some (Ok d, st).
Proof. intro H. unfold Heap.read_int. rewrite H. reflexivity. Qed.

Lemma item_data_at (st : Heap.store) (r : Heap.ref) (d : list Q) (i : Z) :
  nth_error st r = Some (Heap.DataArray d) ->
  Heap.item_data r i st = Some (getitem d i, st).
Proof.
  intro H. unfold Heap.item_data, Heap.mbind. rewrite (read_data_at _ _ _ H).
  reflexivity.
Qed.

Lemma item_int_at (st : Heap.store) (r : Heap.ref) (d : list Z) (i : Z) :
  nth_error st r = Some (Heap.IntArray d) ->
  Heap.item_int r i st = Some (getitem d i, st).
Proof.
  intro H. unfold Heap.item_int, Heap.mbind. rewrite (read_int_at _ _ _ H).
  reflexivity.
Qed.

Lemma mbind_Ok {A B : Type} (m : Heap.M A) (k : A -> Heap.M B)
  (st st' : Heap.store) (x : A) :
  m st = Some (Ok x, st') -> Heap.mbind m k st = k x st'.
Proof. intro H. unfold Heap.mbind. rewrite H. reflexivity. Qed.

Lemma mbind_Raise {A B : Type} (m : Heap.M A) (k : A -> Heap.M B)
  (st st' : Heap.store) (e : exn) :
  m st = Some (Raise e, st') -> Heap.mbind m k st = Some (Raise e, st').
Proof. intro H. unfold Heap.mbind. rewrite H. reflexivity. Qed.

Lemma np_argsort_at (st : Heap.store) (r : Heap.ref) (a : list Q) :
  nth_error st r = Some (Heap.DataArray a) ->
  Heap.np_argsort r st =
  Some (Ok (length st), st ++ [Heap.IntArray (argsort a)]).
Proof.
  intro H. unfold Heap.np_argsort.
  rewrite (mbind_Ok _ _ _ _ _ (read_data_at _ _ _ H)). reflexivity.
Qed.

Lemma np_take_at (st : Heap.store) (r ix : Heap.ref) (a : list Q)
  (i : list Z) (xs : list Q) :
  nth_error st r = Some (Heap.DataArray a) ->
  nth_error st ix = Some (Heap.IntArray i) ->
  take a i = Ok xs ->
  Heap.np_take r ix st = Some (Ok (length st), st ++ [Heap.DataArray xs]).
Proof.
  intros Hr Hi Ht. unfold Heap.np_take.
  rewrite (mbind_Ok _ _ _ _ _ (read_data_at _ _ _ Hr)).
  rewrite (mbind_Ok _ _ _ _ _ (read_int_at _ _ _ Hi)).
  unfold Heap.mbind, Heap.lift. rewrite Ht. reflexivity.
Qed.

Lemma np_array_at (st : Heap.store) (r : Heap.ref) (a : list Q) :
  nth_error st r = Some (Heap.DataArray a) ->
  Heap.np_array r st = Some (Ok (length st), st ++ [Heap.DataArray a]).
Proof.
  intro H. unfold Heap.np_array.
  rewrite (mbind_Ok _ _ _ _ _ (read_data_at _ _ _ H)). reflexivity.
Qed.

Lemma np_searchsorted_at (st : Heap.store) (r : Heap.ref) (a : list Q) (v : Q) :
  nth_error st r = Some (Heap.DataArray a) ->
  Heap.np_searchsorted r v st = Some (Ok (searchsorted_left a v), st).
Proof.
  intro H. unfold Heap.np_searchsorted.
  rewrite (mbind_Ok _ _ _ _ _ (read_data_at _ _ _ H)). reflexivity.
Qed.

Lemma np_len_at (st : Heap.store) (r : Heap.ref) (a : list Q) :
  nth_error st r = Some (Heap.DataArray a) ->
  Heap.np_len r st = Some (Ok (len a), st).
Proof.
  intro H. unfold Heap.np_len.
  rewrite (mbind_Ok _ _ _ _ _ (read_data_at _ _ _ H)). reflexivity.
Qed.

(** Run on a store where [r] names the array [a], the lookup returns what
    the function on values returns, and the store only grows by the three
    fresh objects [idx_sorted], [array[idx_sorted]] and [sorted_array]. *)
Lemma heap_find_nearest_index_run (dt : dtype) (st : Heap.store) (r : Heap.ref)
  (a : list Q) (v : Q) :
  nth_error st r = Some (Heap.DataArray a) ->
  Heap.find_nearest_index dt r v st =
  Some (find_nearest_index dt a v,
        st ++ [Heap.IntArray (argsort a);
               Heap.DataArray (sorted_values a);
               Heap.DataArray (sorted_values a)]).
Proof.
  intro Hr.
  set (c1 := Heap.IntArray (argsort a)).
  set (c2 := Heap.DataArray (sorted_values a)).
  set (st1 := st ++ [c1]). set (st2 := st1 ++ [c2]). set (st3 := st2 ++ [c2]).
  assert (E3 : st ++ [c1; c2; c2] = st3).
  { unfold st3, st2, st1. rewrite <- !app_assoc. reflexivity. }
  rewrite E3.
  assert (Hr1 : nth_error st1 r = Some (Heap.DataArray a)) by (apply store_old, Hr).
  assert (Hr3 : nth_error st3 r = Some (Heap.DataArray a))
    by (unfold st3, st2; do 2 apply store_old; exact Hr1).
  assert (Hi1 : nth_error st1 (length st) = Some c1)
    by (unfold st1; rewrite <- (app_nil_r (st ++ [c1])); apply store_new).
  assert (Hi3 : nth_error st3 (length st) = Some c1)
    by (unfold st3, st2; do 2 apply store_old; exact Hi1).
  assert (Hg2 : nth_error st2 (length st1) = Some c2)
    by (unfold st2; rewrite <- (app_nil_r (st1 ++ [c2])); apply store_new).
  assert (Hs3 : nth_error st3 (length st2) = Some c2)
    by (unfold st3; rewrite <- (app_nil_r (st2 ++ [c2])); apply store_new).
  unfold Heap.find_nearest_index.
  rewrite (mbind_Ok _ _ _ _ _ (np_argsort_at st r a Hr)). fold c1 st1.
  rewrite (mbind_Ok _ _ _ _ _
             (np_take_at st1 r (length st) a _ _ Hr1 Hi1 (take_argsort a))).
  fold c2 st2.
  rewrite (mbind_Ok _ _ _ _ _ (np_array_at st2 _ _ Hg2)). fold st3.
  rewrite (mbind_Ok _ _ _ _ _ (np_searchsorted_at st3 _ _ v Hs3)).
  rewrite (mbind_Ok _ _ _ _ _ (np_len_at st3 _ _ Hr3)).
  rewrite find_nearest_index_unfold. cbv zeta.
  destruct (len a <=? searchsorted_left (sorted_values a) v).
  - apply (item_int_at st3 _ _ _ Hi3).
  - destruct (searchsorted_left (sorted_values a) v =? 0).
    + apply (item_int_at st3 _ _ _ Hi3).
    + destruct (getitem (sorted_values a)
                  (searchsorted_left (sorted_values a) v - 1)) as [lo | e] eqn:Elo.
      * rewrite (mbind_Ok _ _ _ _ lo
                   (eq_trans (item_data_at st3 _ _ _ Hs3) (f_equal (fun c => Some (c, st3)) Elo))).
        destruct (getitem (sorted_values a)
                    (searchsorted_left (sorted_values a) v)) as [hi | e] eqn:Ehi.
        -- rewrite (mbind_Ok _ _ _ _ hi
                   (eq_trans (item_data_at st3 _ _ _ Hs3) (f_equal (fun c => Some (c, st3)) Ehi))).
           simpl bind.
           destruct (Qlt_bool _ _); apply (item_int_at st3 _ _ _ Hi3).
        -- rewrite (mbind_Raise _ _ _ _ e
                   (eq_trans (item_data_at st3 _ _ _ Hs3) (f_equal (fun c => Some (c, st3)) Ehi))).
           reflexivity.
      * rewrite (mbind_Raise _ _ _ _ e
                   (eq_trans (item_data_at st3 _ _ _ Hs3) (f_equal (fun c => Some (c, st3)) Elo))).
        reflexivity.
Qed.

(** C9: [find_nearest_index] is deterministic and leaves its input alone.
    Called twice in a row with the same array object and value, both
    calls give the same outcome (the one of the function on values), and
    after each call the array object, like every object that existed
    before, holds what it held. *)
Theorem find_nearest_index_deterministic (dt : dtype) (st : Heap.store)
  (array : Heap.ref) (a : list Q) (value : Q) :
  nth_error st array = Some (Heap.DataArray a) ->
  exists out st1 st2,
    Heap.find_nearest_index dt array value st = Some (out, st1) /\
    Heap.find_nearest_index dt array value st1 = Some (out, st2) /\
    out = find_nearest_index dt a value /\
    nth_error st1 array = Some (Heap.DataArray a) /\
    nth_error st2 array = Some (Heap.DataArray a) /\
    forall r c, nth_error st r = Some c ->
                nth_error st1 r = Some c /\ nth_error st2 r = Some c.
Proof.
  intro Hr.
  pose proof (heap_find_nearest_index_run dt st array a value Hr) as H1.
  set (fresh := [Heap.IntArray (argsort a); Heap.DataArray (sorted_values a);
                 Heap.DataArray (sorted_values a)]) in *.
  assert (Hr1 : nth_error (st ++ fresh) array = Some (Heap.DataArray a))
    by (apply store_old, Hr).
  pose proof (heap_find_nearest_index_run dt (st ++ fresh) array a value Hr1) as H2.
  fold fresh in H2.
  exists (find_nearest_index dt a value), (st ++ fresh), ((st ++ fresh) ++ fresh).
  repeat split; try assumption.
  - apply store_old, Hr1.
  - apply store_old. assumption.
  - do 2 apply store_old. assumption.
Qed.

Lemma find_nearest_index_deterministic_witness :
  exists out st1 st2,
    Heap.find_nearest_index float64 0%nat (6#1) [Heap.DataArray example_array]
      = Some (out, st1) /\
    Heap.find_nearest_index float64 0%nat (6#1) st1 = Some (out, st2) /\
    out = find_nearest_index float64 example_array (6#1) /\
    nth_error st1 0%nat = Some (Heap.DataArray example_array) /\
    nth_error st2 0%nat = Some (Heap.DataArray example_array) /\
    forall r c, nth_error [Heap.DataArray example_array] r = Some c ->
                nth_error st1 r = Some c /\ nth_error st2 r = Some c.
Proof.
  apply (find_nearest_index_deterministic float64
           [Heap.DataArray example_array] 0%nat example_array (6#1)).
  reflexivity.
Defined.

Example heap_example :
  Heap.find_nearest_index float64 0%nat (6#1) [Heap.DataArray example_array] =
  Some (Ok 2,
        [Heap.DataArray example_array;
         Heap.IntArray [1; 3; 2; 4; 0];
         Heap.DataArray [1#1; 3#1; 7#1; 9#1; 10#1]%Q;
         Heap.DataArray [1#1; 3#1; 7#1; 9#1; 10#1]%Q]).
Proof. vm_compute. reflexivity. Qed.

(** * Further properties of the two lookups *)

(** [find_nearest_index] raises exactly on the empty array. *)
Theorem find_nearest_index_raises_iff_empty (dt : dtype) (array : list Q)
  (value : Q) :
  (exists e, find_nearest_index dt array value = Raise e) <-> array = [].
Proof.
  split.
  - intros [e He]. destruct array as [| x array]; [reflexivity |].
    destruct (find_nearest_index_Ok dt (x :: array) value) as [i [Hi _]];
      [discriminate |].
    rewrite Hi in He. discriminate.
  - intro E. subst array. exists IndexError. apply find_nearest_index_nil.
Qed.

(** With exact distances, an element as close to the value as the
    returned one is not above it. *)
Lemma find_nearest_index_ties (dt : dtype) (array : list Q) (value : Q)
  (i : Z) (x : Q) :
  (forall y, In y array -> exact_distance dt value y) ->
  find_nearest_index dt array value = Ok i ->
  getitem array i = Ok x ->
  forall j y, getitem array j = Ok y ->
              (Qabs (y - value) == Qabs (x - value))%Q -> (y <= x)%Q.
Proof.
  intros Hexact Hf Hx j y Hy Htie.
  assert (Hne : array <> []).
  { intro E. subst array. rewrite getitem_nil in Hx. discriminate. }
  pose proof (searchsorted_left_spec _ value (sorted_values_sorted array)) as Hp.
  set (p := searchsorted_left (sorted_values array) value) in *.
  pose proof Hp as [Hr [Hbelow Habove]]. rewrite sorted_values_len in Hr, Habove.
  destruct (element_sorted_position array j y Hy) as [m [Hm Hym]].
  destruct (find_nearest_index_cases dt array value p Hne Hp)
    as [[Hpe [i' [x' [Hf' [_ [Hx' [Hg _]]]]]]]
       | [[Hpe [i' [x' [Hf' [_ [Hx' [Hg _]]]]]]]
         | [Hpi [i' [k [lo [hi [_ [_ [Hlo [Hhi [Hgi [Hgk [_ [_ Hf']]]]]]]]]]]]]]].
  - rewrite Hf in Hf'. inversion Hf'; subst i'. rewrite Hx in Hg.
    inversion Hg; subst x'.
    apply (sorted_values_mono array m (len array - 1)); [lia | exact Hym | exact Hx'].
  - rewrite Hf in Hf'. inversion Hf'; subst i'. rewrite Hx in Hg.
    inversion Hg; subst x'.
    assert (Hxv : (value <= x)%Q) by (apply (Habove 0); [lia | exact Hx']).
    assert (Hxy : (x <= y)%Q)
      by (apply (sorted_values_mono array 0 m); [lia | exact Hx' | exact Hym]).
    rewrite (dist_above y value), (dist_above x value) in Htie by lra. lra.
  - assert (Hlov : (lo < value)%Q) by (apply (Hbelow (p - 1)); [lia | exact Hlo]).
    assert (Hhiv : (value <= hi)%Q) by (apply (Habove p); [lia | exact Hhi]).
    assert (Hside : (y <= lo \/ hi <= y)%Q).
    { destruct (Z_lt_le_dec m p) as [Hmp | Hmp].
      - left. apply (sorted_values_mono array m (p - 1)); [lia | exact Hym | exact Hlo].
      - right. apply (sorted_values_mono array p m); [lia | exact Hhi | exact Hym]. }
    rewrite Hf in Hf'.
    rewrite (exact_comparison dt value lo hi
               (Hexact lo (getitem_In _ _ _ Hgi)) (Hexact hi (getitem_In _ _ _ Hgk)))
      in Hf'.
    destruct (Qlt_bool (Qabs (value - lo)) (Qabs (value - hi))) eqn:C;
      inversion Hf'; subst i.
    + rewrite Hx in Hgi. inversion Hgi; subst x.
      apply Qlt_bool_iff in C.
      rewrite (Qabs_Qminus value lo), (Qabs_Qminus value hi) in C.
      rewrite (dist_below lo value), (dist_above hi value) in C by lra.
      destruct Hside as [Hs | Hs]; [exact Hs |].
      rewrite (dist_above y value), (dist_below lo value) in Htie by lra. lra.
    + rewrite Hx in Hgk. inversion Hgk; subst x.
      destruct Hside as [Hs | Hs]; [lra |].
      rewrite (dist_above y value), (dist_above hi value) in Htie by lra. lra.
Qed.

(** For a value of the element type, when every distance
    [abs(value - x)] is computed exactly, the
    element returned is at the smallest distance from the value and,
    among the elements at that distance, the largest: no element is
    strictly closer, and any element as close is not above it. *)
Theorem find_nearest_index_tie_upper (dt : dtype) (array : list Q) (value : Q)
  (i : Z) (x : Q) :
  is_dtype dt value = true ->
  (forall y, In y array -> exact_distance dt value y) ->
  find_nearest_index dt array value = Ok i ->
  getitem array i = Ok x ->
  forall j y, getitem array j = Ok y ->
              ~ (Qabs (y - value) < Qabs (x - value))%Q /\
              ((Qabs (y - value) == Qabs (x - value))%Q -> (y <= x)%Q).
Proof.
  intros _ Hexact Hf Hx j y Hy. split.
  - assert (Hne : array <> [])
      by (intro E; subst array; rewrite getitem_nil in Hx; discriminate).
    destruct (find_nearest_index_closest dt array value Hne Hexact)
      as [i' [x' [Hf' [_ [Hx' Hmin]]]]].
    rewrite Hf in Hf'. inversion Hf'; subst i'.
    rewrite Hx in Hx'. inversion Hx'; subst x'.
    apply (Hmin j y Hy).
  - apply (find_nearest_index_ties dt array value i x Hexact Hf Hx j y Hy).
Qed.

Lemma find_nearest_index_tie_upper_witness :
  ~ (Qabs ((1#1) - (2#1)) < Qabs ((3#1) - (2#1)))%Q /\
  ((Qabs ((1#1) - (2#1)) == Qabs ((3#1) - (2#1)))%Q -> (1#1 <= 3#1)%Q).
Proof.
  apply (find_nearest_index_tie_upper int64 [1#1; 3#1] (2#1) 1 (3#1)) with (j := 0).
  - vm_compute. reflexivity.
  - intros y [H | [H | []]]; subst y; vm_compute; reflexivity.
  - vm_compute. reflexivity.
  - vm_compute. reflexivity.
  - vm_compute. reflexivity.
Defined.

(** For [1 <= num_neighbors <= len(array)] the window starts at the
    centred start [idx - (num_neighbors - 1) // 2] clamped into
    [0 .. len(array) - num_neighbors]. *)
Theorem get_neighbors_index_clamped (dt : dtype) (array : list Q)
  (central : Q) (num_neighbors : Z) :
  array <> [] ->
  1 <= num_neighbors <= len array ->
  exists idx,
    find_nearest_index dt array central = Ok idx /\
    get_neighbors_index dt array central num_neighbors =
      let s := Z.min (len array - num_neighbors)
                     (Z.max 0 (idx - (num_neighbors - 1) / 2)) in
      Ok (Slice s (s + num_neighbors)).
Proof.
  intros Hne Hk.
  destruct (get_neighbors_index_Ok dt array central num_neighbors Hne)
    as [idx [Hf [Hr Hg]]].
  exists idx. split; [exact Hf |]. rewrite Hg. cbv zeta. f_equal.
  set (h := (num_neighbors - 1) / 2). f_equal; lia.
Qed.

Lemma get_neighbors_index_clamped_witness :
  exists idx,
    find_nearest_index float64 example_array (10#1) = Ok idx /\
    get_neighbors_index float64 example_array (10#1) 3 =
      let s := Z.min (len example_array - 3) (Z.max 0 (idx - (3 - 1) / 2)) in
      Ok (Slice s (s + 3)).
Proof.
  apply (get_neighbors_index_clamped float64 example_array (10#1) 3 example_array_nonempty).
  vm_compute. split; discriminate.
Defined.

(** Asking for as many neighbours as the array has returns the whole
    array; asking for one returns the nearest position alone. *)
Theorem get_neighbors_index_extremes (dt : dtype) (array : list Q)
  (central : Q) :
  array <> [] ->
  get_neighbors_index dt array central (len array) = Ok (Slice 0 (len array)) /\
  exists idx,
    find_nearest_index dt array central = Ok idx /\
    get_neighbors_index dt array central 1 = Ok (Slice idx (idx + 1)).
Proof.
  intro Hne. pose proof (len_pos array Hne) as Hpos. split.
  - destruct (get_neighbors_index_Ok dt array central (len array) Hne)
      as [idx [_ [Hr Hg]]].
    rewrite Hg.
    assert (Hh : 0 <= (len array - 1) / 2) by (apply Z.div_pos; lia).
    f_equal. f_equal; lia.
  - destruct (get_neighbors_index_Ok dt array central 1 Hne) as [idx [Hf [Hr Hg]]].
    exists idx. split; [exact Hf |]. rewrite Hg.
    change ((1 - 1) / 2) with 0. f_equal. f_equal; lia.
Qed.

Lemma get_neighbors_index_extremes_witness :
  get_neighbors_index float64 example_array (6#1) (len example_array)
    = Ok (Slice 0 (len example_array)) /\
  exists idx,
    find_nearest_index float64 example_array (6#1) = Ok idx /\
    get_neighbors_index float64 example_array (6#1) 1 = Ok (Slice idx (idx + 1)).
Proof.
  apply (get_neighbors_index_extremes float64 example_array (6#1) example_array_nonempty).
Defined.

(** ** Arrays that are already ascending *)

(** A strictly ascending list is the only ascending arrangement of its
    elements. *)
Lemma sorted_perm_unique (l1 l2 : list (Q * Z)) :
  Permutation l1 l2 ->
  StronglySorted fst_lt l1 -> StronglySorted fst_le l2 -> l1 = l2.
Proof.
  revert l2. induction l1 as [| x t1 IH]; intros l2 Hperm H1 H2.
  - apply Permutation_nil in Hperm. symmetry. exact Hperm.
  - destruct l2 as [| y t2].
    + apply Permutation_sym, Permutation_nil in Hperm. discriminate.
    + inversion H1 as [| ? ? Hs1 Hall1]; subst.
      inversion H2 as [| ? ? Hs2 Hall2]; subst.
      rewrite Forall_forall in Hall1, Hall2.
      assert (Hxy : x = y).
      { assert (Hy : In y (x :: t1))
          by (apply (Permutation_in _ (Permutation_sym Hperm)); left; reflexivity).
        destruct Hy as [Hy | Hy]; [exact Hy |].
        assert (Hx : In x (y :: t2))
          by (apply (Permutation_in _ Hperm); left; reflexivity).
        destruct Hx as [Hx | Hx]; [symmetry; exact Hx |].
        specialize (Hall1 y Hy). specialize (Hall2 x Hx).
        unfold fst_lt in Hall1. unfold fst_le, is_true, KeyOrder.leb in Hall2.
        apply Qle_bool_iff in Hall2. exfalso. apply (Qlt_not_le _ _ Hall1 Hall2). }
      subst y. f_equal. apply IH; try assumption.
      apply (Permutation_cons_inv Hperm).
Qed.

Lemma combine_strict (a : list Q) (k : nat) :
  StronglySorted Qlt a ->
  StronglySorted fst_lt (combine a (map Z.of_nat (seq k (length a)))).
Proof.
  intro H. revert k. induction H as [| x a Hs IH Hall]; intro k; simpl.
  - constructor.
  - constructor; [apply IH |].
    rewrite Forall_forall in *. intros [y i] Hin.
    apply in_combine_l in Hin. unfold fst_lt. simpl. apply Hall, Hin.
Qed.

Lemma combine_snd {A B : Type} (l : list A) (m : list B) :
  length l = length m -> map snd (combine l m) = m.
Proof.
  revert m. induction l as [| x l IH]; intros [| y m] H; simpl in *;
    try reflexivity; try discriminate.
  f_equal. apply IH. lia.
Qed.

Lemma sorted_pairs_ascending (a : list Q) :
  StronglySorted Qlt a -> sorted_pairs a = enumerate a.
Proof.
  intro H. symmetry. apply sorted_perm_unique.
  - apply sorted_pairs_perm.
  - apply combine_strict, H.
  - apply sort_pairs_sorted.
Qed.

(** On a strictly ascending array the sort changes nothing. *)
Lemma argsort_ascending (a : list Q) :
  StronglySorted Qlt a -> argsort a = positions a /\ sorted_values a = a.
Proof.
  intro H. unfold argsort, sorted_values. rewrite (sorted_pairs_ascending a H).
  split; [| apply enumerate_fst].
  apply combine_snd. symmetry. apply positions_length.
Qed.

Lemma getitem_positions {A : Type} (a : list A) (k : Z) :
  0 <= k < len a -> getitem (positions a) k = Ok k.
Proof.
  intros [Hk Hlt]. unfold len in Hlt.
  rewrite <- (Z2Nat.id k Hk) at 1. apply getitem_nat.
  unfold positions. rewrite nth_error_map.
  rewrite (nth_error_nth' _ 0%nat) by (rewrite length_seq; lia).
  rewrite seq_nth by lia. simpl. f_equal. lia.
Qed.

(** On a strictly ascending array, for a value of the element type,
    [find_nearest_index] returns a position
    next to the leftmost insertion point [p] of the value in the array
    itself: the last position when [p] is past the end, position 0 when
    [p] is 0, and otherwise [p - 1] when the computed
    [abs(value - array[p - 1])] is strictly less than the computed
    [abs(value - array[p])], else [p]. *)
Theorem find_nearest_index_ascending (dt : dtype) (array : list Q) (value : Q)
  (p : Z) :
  is_dtype dt value = true ->
  StronglySorted Qlt array ->
  array <> [] ->
  leftmost_insertion_point array value p ->
  (p = len array /\ find_nearest_index dt array value = Ok (len array - 1)) \/
  (p = 0 /\ find_nearest_index dt array value = Ok 0) \/
  (0 < p < len array /\
   exists before at_p,
     getitem array (p - 1) = Ok before /\
     getitem array p = Ok at_p /\
     (((distance dt value before < distance dt value at_p)%Q /\
       find_nearest_index dt array value = Ok (p - 1)) \/
      (~ (distance dt value before < distance dt value at_p)%Q /\
       find_nearest_index dt array value = Ok p))).
Proof.
  intros _ Hasc Hne Hp. pose proof (len_pos array Hne) as Hpos.
  destruct (argsort_ascending array Hasc) as [Harg Hval].
  rewrite <- Hval in Hp.
  destruct (find_nearest_index_cases dt array value p Hne Hp)
    as [[Hpe [i [x [Hf [Hi _]]]]]
       | [[Hpe [i [x [Hf [Hi _]]]]]
         | [Hpi [i [k [lo [hi [Hi [Hk [Hlo [Hhi [_ [_ [_ [_ Hf]]]]]]]]]]]]]]].
  - left. split; [exact Hpe |].
    rewrite Harg, getitem_positions in Hi by lia. inversion Hi; subst i. exact Hf.
  - right; left. split; [exact Hpe |].
    rewrite Harg, getitem_positions in Hi by lia. inversion Hi; subst i. exact Hf.
  - right; right. split; [exact Hpi |].
    rewrite Harg, getitem_positions in Hi by lia. inversion Hi; subst i.
    rewrite Harg, getitem_positions in Hk by lia. inversion Hk; subst k.
    rewrite Hval in Hlo, Hhi.
    exists lo, hi. split; [exact Hlo |]. split; [exact Hhi |].
    destruct (Qlt_bool (distance dt value lo) (distance dt value hi)) eqn:C.
    + left. split; [apply Qlt_bool_iff, C | exact Hf].
    + right. split; [| exact Hf].
      intro H. apply Qlt_bool_iff in H. congruence.
Qed.

(** * [format_size] *)

Section FormatSizeFacts.

Variable fmt : Q -> string.

Lemma Qlt_bool_above (v : Q) (a b : Z) :
  a <= b -> (inject_Z b <= v)%Q -> Qlt_bool v (inject_Z a) = false.
Proof.
  intros Hab Hv. apply Qlt_bool_false_iff.
  apply Qle_trans with (inject_Z b); [| exact Hv].
  rewrite <- Zle_Qle. exact Hab.
Qed.

(** The loop returns at the first unit above the value. *)
Lemma suffix_loop_select (base : Z) (v : Q) (gnu : bool) :
  1 < base ->
  forall pre i s post last,
    (inject_Z (base ^ (Z.of_nat (i + length pre) + 1)) <= v)%Q ->
    (v < inject_Z (base ^ (Z.of_nat (i + length pre) + 2)))%Q ->
    FormatSize.suffix_loop fmt base v gnu i (pre ++ s :: post) last =
    Return (fmt (FormatSize.scaled base v
                   (base ^ (Z.of_nat (i + length pre) + 2)))
            ++ (if gnu then "" else " ") ++ s)%string.
Proof.
  intros Hb pre. induction pre as [| s' pre IH]; intros i s post last Hlo Hhi.
  - simpl length in *. rewrite Nat.add_0_r in *.
    cbn [app FormatSize.suffix_loop]. cbv zeta.
    apply Qlt_bool_iff in Hhi. rewrite Hhi.
    destruct gnu; reflexivity.
  - simpl length in *. cbn [app FormatSize.suffix_loop]. cbv zeta.
    rewrite (Qlt_bool_above v _ (base ^ (Z.of_nat (i + S (length pre)) + 1)));
      [| apply Z.pow_le_mono_r; lia | exact Hlo].
    cbn [andb].
    replace (i + S (length pre))%nat with (S i + length pre)%nat in * by lia.
    apply IH; assumption.
Qed.


Lemma base_cases (binary gnu : bool) :
  let base := if gnu || binary then 1024 else 1000 in 1 < base.
Proof. destruct gnu, binary; simpl; lia. Qed.

Lemma suffix_tables_length (binary gnu : bool) :
  length (if gnu then FormatSize.size_suffixes_gnu
          else if binary then FormatSize.size_suffixes_binary
               else FormatSize.size_suffixes_decimal) = 8%nat.
Proof. destruct gnu, binary; reflexivity. Qed.

(** With [bytes] at or above the base none of the three byte branches is
    taken. *)
Lemma format_size_enters_loop (value bytes : Q) (binary gnu : bool) :
  FormatSize.to_float value = Return bytes ->
  (inject_Z (if gnu || binary then 1024 else 1000) <= bytes)%Q ->
  FormatSize.format_size fmt value binary gnu =
  FormatSize.suffix_loop fmt (if gnu || binary then 1024 else 1000) bytes gnu 0
    (if gnu then FormatSize.size_suffixes_gnu
     else if binary then FormatSize.size_suffixes_binary
          else FormatSize.size_suffixes_decimal) None.
Proof.
  intros Hfl H. unfold FormatSize.format_size. cbv zeta. rewrite Hfl.
  pose proof (base_cases binary gnu) as Hb. cbv zeta in Hb.
  assert (H1 : Qeq_bool bytes 1 = false).
  { destruct (Qeq_bool bytes 1) eqn:E; [| reflexivity].
    apply Qeq_bool_iff in E. rewrite E in H.
    change 1%Q with (inject_Z 1) in H. rewrite <- Zle_Qle in H. lia. }
  rewrite H1. cbn [andb].
  rewrite (Qlt_bool_above bytes _ _ (Z.le_refl _) H). reflexivity.
Qed.

End FormatSizeFacts.

(** When [bytes = float(value)] is in [base^(k+1), base^(k+2)) with
    [k < 8], the result is the text of the float64 [base * bytes / unit],
    for [unit = base^(k+2)], followed by the k-th suffix of the table in
    use; the gnu style puts no space before the suffix. *)
Theorem format_size_scaled (fmt : Q -> string) (value bytes : Q)
  (binary gnu : bool) (k : nat) :
  let base := if gnu || binary then 1024 else 1000 in
  let suffix := if gnu then FormatSize.size_suffixes_gnu
                else if binary then FormatSize.size_suffixes_binary
                     else FormatSize.size_suffixes_decimal in
  let unit := base ^ (Z.of_nat k + 2) in
  FormatSize.to_float value = Return bytes ->
  (k < 8)%nat ->
  (inject_Z (base ^ (Z.of_nat k + 1)) <= bytes)%Q ->
  (bytes < inject_Z unit)%Q ->
  FormatSize.format_size fmt value binary gnu =
    Return (fmt (FormatSize.scaled base bytes unit)
            ++ (if gnu then "" else " ") ++ nth k suffix "")%string.
Proof.
  intros base suffix unit Hfl Hk Hlo Hhi.
  pose proof (base_cases binary gnu) as Hb. cbv zeta in Hb. fold base in Hb.
  rewrite (format_size_enters_loop fmt value bytes binary gnu Hfl).
  - fold base suffix.
    destruct (@nth_split _ k suffix ""%string) as [pre [post [Hs Hl]]].
    { unfold suffix. rewrite suffix_tables_length. exact Hk. }
    set (s := nth k suffix ""%string) in *. clearbody s.
    rewrite Hs. subst unit. subst k.
    apply (suffix_loop_select fmt base bytes gnu Hb pre 0%nat); assumption.
  - fold base. apply Qle_trans with (inject_Z (base ^ (Z.of_nat k + 1)));
      [| exact Hlo].
    rewrite <- Zle_Qle. rewrite <- (Z.pow_1_r base) at 1.
    apply Z.pow_le_mono_r; lia.
Qed.

(** [format_size(21 * 10**18, format='%d')]: the product
    [1000 * 2.1e19] is rounded, the quotient falls just below 21, and
    ['%d'] shows 20. *)
Lemma format_size_scaled_witness :
  FormatSize.format_size FormatSize.percent_d (inject_Z (21 * 10 ^ 18)) false false
    = Return "20 EB"%string.
Proof.
  apply (format_size_scaled FormatSize.percent_d (inject_Z (21 * 10 ^ 18))
           (inject_Z (21 * 10 ^ 18)) false false 5%nat).
  - vm_compute. reflexivity.
  - lia.
  - vm_compute. discriminate.
  - vm_compute. reflexivity.
Defined.



Lemma percent_d_integer (bytes : Q) (n : Z) :
  (bytes == inject_Z n)%Q ->
  FormatSize.percent_d bytes = NilZero.string_of_int (Z.to_int n).
Proof.
  intro H. unfold FormatSize.percent_d. do 2 f_equal.
  destruct bytes as [a b]. unfold Qeq, inject_Z in H. cbn [Qnum Qden] in *.
  rewrite Z.mul_1_r in H. rewrite H. apply Z.quot_mul. discriminate.
Qed.

(** When [bytes = float(value)] is an integer below the base, negative
    integers included, the result is that integer in decimal followed by
    [" Bytes"], ["1 Byte"] for 1; the gnu style shows it followed by
    ["B"], also when it is 1. *)
Theorem format_size_bytes (fmt : Q -> string) (value bytes : Q) (n : Z)
  (binary gnu : bool) :
  FormatSize.to_float value = Return bytes ->
  (bytes == inject_Z n)%Q ->
  n < (if gnu || binary then 1024 else 1000) ->
  FormatSize.format_size fmt value binary gnu =
    Return (if gnu then NilZero.string_of_int (Z.to_int n) ++ "B"
            else if (n =? 1)%Z then "1 Byte"
                 else NilZero.string_of_int (Z.to_int n) ++ " Bytes")%string.
Proof.
  intros Hfl Hb Hn. unfold FormatSize.format_size. cbv zeta. rewrite Hfl.
  rewrite (percent_d_integer bytes n Hb).
  assert (Hlt : Qlt_bool bytes
                  (inject_Z (if gnu || binary then 1024 else 1000)) = true)
    by (apply Qlt_bool_iff; rewrite Hb, <- Zlt_Qlt; exact Hn).
  rewrite Hlt.
  destruct gnu; cbn [andb negb].
  - rewrite andb_false_r. reflexivity.
  - rewrite andb_true_r.
    destruct (Z.eqb_spec n 1) as [E | E].
    + subst n.
      assert (C : Qeq_bool bytes 1 = true) by (apply Qeq_bool_iff; exact Hb).
      rewrite C. reflexivity.
    + destruct (Qeq_bool bytes 1) eqn:C; [| reflexivity].
      apply Qeq_bool_iff in C. rewrite Hb in C. change 1%Q with (inject_Z 1) in C.
      exfalso. apply E. apply (proj1 (inject_Z_injective n 1) C).
Qed.

(** The count [-(2^53 + 1)] is not a float64: it is shown as the float64
    next to it. *)
Lemma format_size_bytes_witness :
  FormatSize.format_size FormatSize.percent_d (inject_Z (- (2 ^ 53 + 1))) false false
    = Return "-9007199254740992 Bytes"%string.
Proof.
  apply (format_size_bytes FormatSize.percent_d (inject_Z (- (2 ^ 53 + 1)))
           (inject_Z (- 2 ^ 53)) (- 2 ^ 53) false false).
  - vm_compute. reflexivity.
  - reflexivity.
  - reflexivity.
Defined.

(** ['%d'] drops the fraction of a non-negative number. *)
Lemma percent_d_floor (v : Q) (n : Z) :
  0 <= n -> (inject_Z n <= v)%Q -> (v < inject_Z (n + 1))%Q ->
  FormatSize.percent_d v = NilZero.string_of_int (Z.to_int n).
Proof.
  intros Hn Hlo Hhi. unfold FormatSize.percent_d. do 2 f_equal.
  destruct v as [a b]. unfold Qle, Qlt, inject_Z in *. cbn [Qnum Qden] in *.
  rewrite Z.quot_div_nonneg by nia.
  symmetry. apply (Z.div_unique a (Z.pos b) n (a - Z.pos b * n)); nia.
Qed.

(** Without the gnu style, when [bytes = float(value)] is not negative,
    below the base and not 1, the result is the integer part of [bytes]
    followed by [" Bytes"]: only a [bytes] equal to 1 is shown in the
    singular, so one strictly between 1 and 2 reads ["1 Bytes"]. *)
Theorem format_size_fraction (fmt : Q -> string) (value bytes : Q) (n : Z)
  (binary : bool) :
  FormatSize.to_float value = Return bytes ->
  0 <= n ->
  (inject_Z n <= bytes)%Q ->
  (bytes < inject_Z (n + 1))%Q ->
  (bytes < inject_Z (if binary then 1024 else 1000))%Q ->
  ~ (bytes == 1)%Q ->
  FormatSize.format_size fmt value binary false =
    Return (NilZero.string_of_int (Z.to_int n) ++ " Bytes")%string.
Proof.
  intros Hfl Hn Hlo Hhi Hb Hne. unfold FormatSize.format_size. cbv zeta.
  rewrite Hfl. cbn [orb negb].
  destruct (Qeq_bool bytes 1) eqn:C.
  - apply Qeq_bool_iff in C. contradiction.
  - cbn [andb]. apply Qlt_bool_iff in Hb. rewrite Hb. cbn [andb].
    rewrite (percent_d_floor bytes n Hn Hlo Hhi). reflexivity.
Qed.

Lemma format_size_fraction_witness :
  FormatSize.format_size FormatSize.percent_d (3#2) false false
    = Return "1 Bytes"%string.
Proof.
  apply (format_size_fraction FormatSize.percent_d (3#2) (3#2) 1 false).
  - vm_compute. reflexivity.
  - lia.
  - vm_compute. discriminate.
  - vm_compute. reflexivity.
  - vm_compute. reflexivity.
  - intro H. vm_compute in H. discriminate.
Defined.

(** The fraction [(2^60 + 1) / 2^60] lies strictly between 1 and 2, but
    its float64 is 1. *)
Example format_size_rounds_to_one :
  FormatSize.format_size FormatSize.percent_d ((2 ^ 60 + 1) # (2 ^ 60)) false false
  = Return "1 Byte"%string.
Proof. vm_compute. reflexivity. Qed.

(** The float64 of [10^24] is just below [1000^8]; the number shown with
    the suffix for [1000^7] rounds up to the base itself. *)
Example format_size_rounds_to_base :
  FormatSize.format_size FormatSize.percent_d (inject_Z (10 ^ 24)) false false
  = Return "1000 ZB"%string.
Proof. vm_compute. reflexivity. Qed.

(** A number too large for a float64 raises [OverflowError]. *)
Example format_size_too_large :
  FormatSize.format_size FormatSize.percent_d (inject_Z (2 ^ 1024)) false false
  = Throw OverflowError.
Proof. vm_compute. reflexivity. Qed.

(** * [_InheritDoc] *)

Section InheritDocFacts.

Import InheritDoc.

Lemma set_doc_same (st : store) (r : ref) (d : docval) :
  doc (set_doc st r d r) = d.
Proof. unfold set_doc. rewrite Nat.eqb_refl. reflexivity. Qed.

Lemma set_doc_other (st : store) (r r' : ref) (d : docval) :
  r' <> r -> set_doc st r d r' = st r'.
Proof.
  intro H. unfold set_doc. destruct (Nat.eqb_spec r' r); [contradiction | reflexivity].
Qed.

Lemma set_doc_truth (st : store) (r r' : ref) (d : docval) :
  truth (set_doc st r d r') = truth (st r').
Proof.
  unfold set_doc. destruct (Nat.eqb_spec r' r); [subst; reflexivity | reflexivity].
Qed.

Lemma doc_truthy_not_sentinel (d : docval) :
  d = DocNone \/ doc_truthy d = true -> d <> DocSentinel.
Proof. intros [H | H] E; subst; discriminate. Qed.

(** What the loop over the bases assigns is [None] or a truthy docstring. *)
Lemma inherit_loop_doc (st : store) (name : string) (parents : list namespace) :
  forall b,
    snd (inherit_loop st name parents b) = DocNone \/
    doc_truthy (snd (inherit_loop st name parents b)) = true.
Proof.
  induction parents as [| parent rest IH]; intro b; simpl.
  - left. reflexivity.
  - destruct (getattr parent name) as [r |]; [| apply IH].
    destruct (truth (st r) && doc_truthy (doc (st r))) eqn:C; [| apply IH].
    right. simpl. apply andb_true_iff in C. apply C.
Qed.

(** The loop over the bases reads only what [getattr] finds for [name]. *)
Lemma inherit_loop_ext (st1 st2 : store) (name : string)
  (parents : list namespace) :
  (forall parent r, In parent parents -> getattr parent name = Some r ->
                    st1 r = st2 r) ->
  forall b, inherit_loop st1 name parents b = inherit_loop st2 name parents b.
Proof.
  induction parents as [| parent rest IH]; intros H b; simpl; [reflexivity |].
  destruct (getattr parent name) as [r |] eqn:E.
  - rewrite (H parent r (or_introl eq_refl) E).
    destruct (truth (st2 r) && doc_truthy (doc (st2 r))); [reflexivity |].
    apply IH. intros q r' Hq. apply H. right. exact Hq.
  - apply IH. intros q r' Hq. apply H. right. exact Hq.
Qed.

(** The loop over the bases stops at the first base that documents
    [name]; when none does it assigns [None] and [parfunc_found] is what
    the last base left in it. *)
Lemma inherit_loop_spec (st : store) (name : string) (parents : list namespace) :
  forall b0 b d,
    inherit_loop st name parents b0 = (b, d) ->
    (exists pre parent post,
        parents = pre ++ parent :: post /\
        documents st name parent d /\
        (forall q d', In q pre -> ~ documents st name q d') /\
        b = true) \/
    ((forall q d', In q parents -> ~ documents st name q d') /\
     d = DocNone /\
     b = fold_left (fun _ q => attr_truth st q name) parents b0).
Proof.
  induction parents as [| parent rest IH]; intros b0 b d H; simpl in H.
  - inversion H; subst. right. split; [| split; reflexivity].
    intros q d' [].
  - assert (Hstep :
      (exists r, getattr parent name = Some r /\
                 truth (st r) && doc_truthy (doc (st r)) = true /\
                 b = truth (st r) /\ d = doc (st r)) \/
      ((forall d', ~ documents st name parent d') /\
       inherit_loop st name rest (attr_truth st parent name) = (b, d))).
    { unfold attr_truth. destruct (getattr parent name) as [r |] eqn:E.
      - destruct (truth (st r) && doc_truthy (doc (st r))) eqn:C.
        + left. exists r. inversion H; subst. repeat split; assumption.
        + right. split; [| exact H].
          intros d' [r' [Hr' [Ht [Hd Hdt]]]]. unfold documents in *.
          rewrite E in Hr'. inversion Hr'; subst r'. subst d'.
          rewrite Ht, Hdt in C. discriminate.
      - right. split; [| exact H].
        intros d' [r' [Hr' _]]. rewrite E in Hr'. discriminate. }
    destruct Hstep as [[r [E [C [Hb Hd]]]] | [Hno Hrest]].
    + left. exists [], parent, rest. apply andb_true_iff in C. destruct C as [Ct Cd].
      split; [reflexivity |]. split.
      * exists r. subst d. repeat split; assumption.
      * split; [intros q d' [] | congruence].
    + destruct (IH _ _ _ Hrest)
        as [[pre [q [post [Hp [Hdoc [Hpre Hb]]]]]] | [Hnone [Hd Hb]]].
      * left. exists (parent :: pre), q, post. subst rest.
        split; [reflexivity |]. split; [exact Hdoc |]. split; [| exact Hb].
        intros q' d' [Hq | Hq]; [subst q'; apply Hno | apply Hpre, Hq].
      * right. split; [| split; [exact Hd | exact Hb]].
        intros q' d' [Hq | Hq]; [subst q'; apply Hno | apply Hnone, Hq].
Qed.

(** Whatever the outer loop does to an object, it does to a marked
    function of the class, and leaves it with [None] or a truthy
    docstring. *)
Lemma resolve_loop_frame (parents : list namespace) :
  forall items found st out st',
    resolve_loop parents items found st = (out, st') ->
    forall r,
      st' r = st r \/
      (marked st r /\ In r (map snd items) /\
       truth (st' r) = truth (st r) /\
       (doc (st' r) = DocNone \/ doc_truthy (doc (st' r)) = true)).
Proof.
  induction items as [| [n0 f0] rest IH]; intros found st out st' H r; simpl in H.
  - inversion H; subst. left. reflexivity.
  - assert (Hskip : doc (st f0) <> DocSentinel ->
                    resolve_loop parents rest found st = (out, st') ->
                    st' r = st r \/
                    (marked st r /\ In r (map snd ((n0, f0) :: rest)) /\
                     truth (st' r) = truth (st r) /\
                     (doc (st' r) = DocNone \/ doc_truthy (doc (st' r)) = true))).
    { intros _ H'. destruct (IH _ _ _ _ H' r) as [Hs | [Hm [Hin Hrest]]].
      - left. exact Hs.
      - right. split; [exact Hm |]. split; [right; exact Hin | exact Hrest]. }
    destruct (doc (st f0)) eqn:E;
      [apply Hskip; [discriminate | exact H]
      | apply Hskip; [discriminate | exact H] |].
    clear Hskip.
    pose proof (inherit_loop_doc st n0 parents false) as Hd.
    destruct (inherit_loop st n0 parents false) as [b d]. simpl in Hd.
    assert (Hst1 : forall st1, st1 = set_doc st f0 d ->
              (st' r = st1 r \/
               (marked st1 r /\ In r (map snd rest) /\
                truth (st' r) = truth (st1 r) /\
                (doc (st' r) = DocNone \/ doc_truthy (doc (st' r)) = true))) ->
              st' r = st r \/
              (marked st r /\ In r (map snd ((n0, f0) :: rest)) /\
               truth (st' r) = truth (st r) /\
               (doc (st' r) = DocNone \/ doc_truthy (doc (st' r)) = true))).
    { intros st1 Hst1 Hcase. destruct (Nat.eq_dec r f0) as [Heq | Hneq].
      - subst r. right. split; [exact E |]. split; [left; reflexivity |].
        destruct Hcase as [Hs | [Hm _]].
        + rewrite Hs, Hst1, set_doc_truth, set_doc_same.
          split; [reflexivity | exact Hd].
        + exfalso. unfold marked in Hm. rewrite Hst1, set_doc_same in Hm.
          apply (doc_truthy_not_sentinel d Hd Hm).
      - rewrite Hst1, (set_doc_other st f0 r d Hneq) in Hcase.
        destruct Hcase as [Hs | [Hm [Hin Hrest]]].
        + left. exact Hs.
        + right. unfold marked in *.
          rewrite (set_doc_other st f0 r d Hneq) in Hm.
          split; [exact Hm |]. split; [right; exact Hin | exact Hrest]. }
    destruct b.
    + apply (Hst1 _ eq_refl). apply (IH _ _ _ _ H r).
    + inversion H; subst. apply (Hst1 _ eq_refl). left. reflexivity.
Qed.

(** An object that is not marked is left as it is. *)
Lemma resolve_loop_unmarked (parents : list namespace) (items : list (string * ref))
  (found : bool) (st st' : store) (out : outcome bool) (r : ref) :
  resolve_loop parents items found st = (out, st') ->
  ~ marked st r -> st' r = st r.
Proof.
  intros H Hm. destruct (resolve_loop_frame parents _ _ _ _ _ H r) as [Hs | [Hm' _]];
    [exact Hs | contradiction].
Qed.

(** When the outer loop ends normally no entry is marked any more, and
    [sentinel_found] tells whether one was. *)
Lemma resolve_loop_clears (parents : list namespace) :
  forall items found st b st',
    resolve_loop parents items found st = (Return b, st') ->
    (forall n f, In (n, f) items -> ~ marked st' f) /\
    (b = true <-> found = true \/ exists n f, In (n, f) items /\ marked st f).
Proof.
  induction items as [| [n0 f0] rest IH]; intros found st b st' H; simpl in H.
  - inversion H; subst. split; [intros n f [] |].
    split; [intro Hb; left; exact Hb |].
    intros [Hb | [n [f [[] _]]]]. exact Hb.
  - assert (Hskip : doc (st f0) <> DocSentinel ->
                    resolve_loop parents rest found st = (Return b, st') ->
                    (forall n f, In (n, f) ((n0, f0) :: rest) -> ~ marked st' f) /\
                    (b = true <->
                     found = true \/
                     exists n f, In (n, f) ((n0, f0) :: rest) /\ marked st f)).
    { intros Hns H'. destruct (IH _ _ _ _ H') as [Hc Hb]. split.
      - intros n f [Hin | Hin]; [| apply (Hc n f Hin)].
        assert (Hf : f = f0) by (inversion Hin; reflexivity). subst f. unfold marked.
        rewrite (resolve_loop_unmarked _ _ _ _ _ _ f0 H' Hns). exact Hns.
      - rewrite Hb. split.
        + intros [Hf | [n [f [Hin Hm]]]]; [left; exact Hf |].
          right. exists n, f. split; [right; exact Hin | exact Hm].
        + intros [Hf | [n [f [[Hin | Hin] Hm]]]]; [left; exact Hf | |].
          * assert (Hf : f = f0) by (inversion Hin; reflexivity). subst f. contradiction.
          * right. exists n, f. split; assumption. }
    destruct (doc (st f0)) eqn:E;
      [apply Hskip; [discriminate | exact H]
      | apply Hskip; [discriminate | exact H] |].
    clear Hskip.
    pose proof (inherit_loop_doc st n0 parents false) as Hd.
    destruct (inherit_loop st n0 parents false) as [pf d]. simpl in Hd.
    destruct pf; [| discriminate].
    destruct (IH _ _ _ _ H) as [Hc Hb]. split.
    + intros n f [Hin | Hin]; [| apply (Hc n f Hin)].
      assert (Hf : f = f0) by (inversion Hin; reflexivity). subst f. unfold marked.
      assert (Hns : ~ marked (set_doc st f0 d) f0)
        by (unfold marked; rewrite set_doc_same; apply doc_truthy_not_sentinel, Hd).
      rewrite (resolve_loop_unmarked _ _ _ _ _ _ f0 H Hns). exact Hns.
    + split.
      * intros _. right. exists n0, f0. split; [left; reflexivity | exact E].
      * intros _. apply Hb. left. reflexivity.
Qed.

End InheritDocFacts.

Section InheritDocTheorems.

Import InheritDoc.

(** Entries that are not marked are passed over. *)
Lemma resolve_loop_skip_prefix (parents : list namespace) (rest : list (string * ref))
  (st : store) :
  forall pre found,
    (forall n g, In (n, g) pre -> ~ marked st g) ->
    resolve_loop parents (pre ++ rest) found st
    = resolve_loop parents rest found st.
Proof.
  induction pre as [| [n0 f0] pre IH]; intros found H; simpl; [reflexivity |].
  assert (Hf0 : ~ marked st f0) by (apply (H n0); left; reflexivity).
  unfold marked in Hf0.
  destruct (doc (st f0)); try contradiction;
    apply IH; intros n g Hin; apply (H n); right; exact Hin.
Qed.

Lemma resolve_loop_skip (parents : list namespace) (items : list (string * ref))
  (found : bool) (st : store) :
  (forall n g, In (n, g) items -> ~ marked st g) ->
  resolve_loop parents items found st = (Return found, st).
Proof.
  intro H. rewrite <- (app_nil_r items).
  rewrite resolve_loop_skip_prefix by exact H. reflexivity.
Qed.

Lemma doc_truthy_string (d : docval) :
  doc_truthy d = true -> exists s, d = DocStr s /\ s <> ""%string.
Proof.
  destruct d as [| s |]; simpl; try discriminate.
  intro H. exists s. split; [reflexivity |].
  intro E. subst s. discriminate.
Qed.

(** The loop over the bases, when an earlier base documents [name]. *)
Lemma inherit_loop_first (st : store) (name : string) (d : docval) :
  forall pre parent post b0,
    documents st name parent d ->
    (forall q d', In q pre -> ~ documents st name q d') ->
    inherit_loop st name (pre ++ parent :: post) b0 = (true, d).
Proof.
  induction pre as [| q pre IH]; intros parent post b0 Hdoc Hpre; simpl.
  - destruct Hdoc as [r [Hr [Ht [Hd Hdt]]]]. rewrite Hr, Ht, Hd, Hdt. reflexivity.
  - assert (Hq : forall d', ~ documents st name q d')
      by (intro d'; apply Hpre; left; reflexivity).
    assert (Hpre' : forall q' d', In q' pre -> ~ documents st name q' d')
      by (intros q' d' Hin; apply Hpre; right; exact Hin).
    destruct (getattr q name) as [r |] eqn:E; [| apply IH; assumption].
    destruct (truth (st r) && doc_truthy (doc (st r))) eqn:C;
      [| apply IH; assumption].
    exfalso. apply andb_true_iff in C. destruct C as [Ct Cd].
    apply (Hq (doc (st r))). exists r. repeat split; assumption.
Qed.

(** With each function bound once and no marked object among those the
    bases provide, every marked entry ends with what the loop over the
    bases gives for its name in the initial store. *)
Lemma resolve_loop_inherits (parents : list namespace) :
  forall items found st b st',
    NoDup (map snd items) ->
    (forall parent n r, In parent parents -> getattr parent n = Some r ->
                        ~ marked st r) ->
    resolve_loop parents items found st = (Return b, st') ->
    forall name f,
      In (name, f) items -> marked st f ->
      doc (st' f) = snd (inherit_loop st name parents false).
Proof.
  induction items as [| [n0 f0] rest IH];
    intros found st b st' Hnd Hpar H name f Hin Hm; [destruct Hin |].
  simpl in Hnd. inversion Hnd as [| ? ? Hnotin Hnd']; subst.
  simpl in H.
  assert (Hskip : doc (st f0) <> DocSentinel ->
                  resolve_loop parents rest found st = (Return b, st') ->
                  doc (st' f) = snd (inherit_loop st name parents false)).
  { intros Hns H'. destruct Hin as [Hin | Hin].
    - assert (Hf : f = f0) by (inversion Hin; reflexivity). subst f. contradiction.
    - apply (IH _ _ _ _ Hnd' Hpar H' name f Hin Hm). }
  destruct (doc (st f0)) eqn:E;
    [apply Hskip; [discriminate | exact H]
    | apply Hskip; [discriminate | exact H] |].
  clear Hskip.
  pose proof (inherit_loop_doc st n0 parents false) as Hd.
  destruct (inherit_loop st n0 parents false) as [pf d] eqn:Eloop. simpl in Hd.
  destruct pf; [| discriminate].
  destruct Hin as [Hin | Hin].
  - assert (Hf : f = f0) by (inversion Hin; reflexivity).
    assert (Hn : name = n0) by (inversion Hin; reflexivity). subst f name.
    assert (Hns : ~ marked (set_doc st f0 d) f0)
      by (unfold marked; rewrite set_doc_same; apply doc_truthy_not_sentinel, Hd).
    rewrite (resolve_loop_unmarked _ _ _ _ _ _ f0 H Hns).
    rewrite set_doc_same, Eloop. reflexivity.
  - assert (Hneq : f <> f0).
    { intro Heq. subst f. apply Hnotin.
      apply (in_map snd) in Hin. exact Hin. }
    assert (Hpar' : forall parent n r, In parent parents ->
                      getattr parent n = Some r -> ~ marked (set_doc st f0 d) r).
    { intros parent n r Hp Hr. unfold marked.
      destruct (Nat.eq_dec r f0) as [Heq | Hne].
      - subst r. exfalso. apply (Hpar parent n f0 Hp Hr). exact E.
      - rewrite (set_doc_other st f0 r d Hne). apply (Hpar parent n r Hp Hr). }
    assert (Hm' : marked (set_doc st f0 d) f)
      by (unfold marked; rewrite (set_doc_other st f0 f d Hneq); exact Hm).
    rewrite (IH _ _ _ _ Hnd' Hpar' H name f Hin Hm').
    f_equal. apply inherit_loop_ext. intros parent r Hp Hr.
    apply set_doc_other. intro Heq. subst r.
    apply (Hpar parent name f0 Hp Hr). exact E.
Qed.

(** [resolve] on a class none of whose entries is marked raises
    [TypeError] and changes no object. *)
Theorem resolve_requires_mark (cls : class) (st : store) :
  (forall n f, In (n, f) (vars cls) -> ~ marked st f) ->
  resolve cls st = (Throw TypeError, st).
Proof.
  intro H. unfold resolve. rewrite (resolve_loop_skip _ _ _ _ H). reflexivity.
Qed.

(** When [resolve] returns, it returns the class, some entry was marked,
    and afterwards no entry is. *)
Theorem resolve_clears_marks (cls c : class) (st st' : store) :
  resolve cls st = (Return c, st') ->
  c = cls /\
  (exists n f, In (n, f) (vars cls) /\ marked st f) /\
  (forall n f, In (n, f) (vars cls) -> ~ marked st' f).
Proof.
  unfold resolve. intro H.
  destruct (resolve_loop (bases cls) (vars cls) false st) as [[b | e] st1] eqn:E;
    [| discriminate].
  destruct b; [| discriminate]. inversion H; subst.
  destruct (resolve_loop_clears _ _ _ _ _ _ E) as [Hc Hb].
  split; [reflexivity |]. split; [| exact Hc].
  destruct (proj1 Hb eq_refl) as [Hf | Hex]; [discriminate | exact Hex].
Qed.

(** Whether it returns or raises, [resolve] changes only objects that are
    marked entries of the class; of those it keeps the truth value and
    leaves the docstring [None] or a non-empty string. *)
Theorem resolve_frame (cls : class) (st st' : store) (out : outcome class) (r : ref) :
  resolve cls st = (out, st') ->
  st' r = st r \/
  (marked st r /\ In r (map snd (vars cls)) /\
   truth (st' r) = truth (st r) /\
   (doc (st' r) = DocNone \/
    exists s, doc (st' r) = DocStr s /\ s <> ""%string)).
Proof.
  unfold resolve. intro H.
  destruct (resolve_loop (bases cls) (vars cls) false st) as [o st1] eqn:E.
  assert (Hst : st' = st1) by (destruct o as [[|] | e]; inversion H; reflexivity).
  subst st1.
  destruct (resolve_loop_frame _ _ _ _ _ _ E r) as [Hs | [Hm [Hin [Ht Hd]]]].
  - left. exact Hs.
  - right. repeat split; try assumption.
    destruct Hd as [Hd | Hd]; [left; exact Hd | right; apply doc_truthy_string, Hd].
Qed.

Lemma fold_attr_truth_last (st : store) (name : string) :
  forall parents b0,
    parents <> [] ->
    fold_left (fun _ q => attr_truth st q name) parents b0
    = attr_truth st (last parents []) name.
Proof.
  induction parents as [| q rest IH]; intros b0 Hne; [contradiction |].
  destruct rest as [| q' rest]; [reflexivity |].
  change (fold_left (fun _ q0 => attr_truth st q0 name) (q' :: rest)
            (attr_truth st q name)
          = attr_truth st (last (q' :: rest) []) name).
  apply IH. discriminate.
Qed.

(** When no base documents [name], the loop over the bases assigns
    [None] and finds what the last base has. *)
Lemma inherit_loop_none (st : store) (name : string) (parents : list namespace) :
  (forall q d, In q parents -> ~ documents st name q d) ->
  inherit_loop st name parents false
  = (attr_truth st (last parents []) name, DocNone).
Proof.
  intro Hnone. destruct (inherit_loop st name parents false) as [b d] eqn:E.
  destruct (inherit_loop_spec st name parents false b d E)
    as [[pre [parent [post [Hp [Hdoc _]]]]] | [_ [Hd Hb]]].
  - exfalso. apply (Hnone parent d); [| exact Hdoc].
    rewrite Hp. apply in_or_app. right. left. reflexivity.
  - subst d. f_equal. rewrite Hb.
    destruct parents as [| q rest]; [reflexivity |].
    apply fold_attr_truth_last. discriminate.
Qed.

(** With each function bound once in the class and no marked object
    among those the bases provide: when [resolve] returns, a marked
    entry has the docstring of the first base, in order, that documents
    its name, and [None] when no base does. *)
Theorem resolve_inherits_first_documented (cls c : class) (st st' : store) :
  NoDup (map snd (vars cls)) ->
  (forall parent n r, In parent (bases cls) -> getattr parent n = Some r ->
                      ~ marked st r) ->
  resolve cls st = (Return c, st') ->
  forall name f,
    In (name, f) (vars cls) -> marked st f ->
    (exists pre parent post,
        bases cls = pre ++ parent :: post /\
        documents st name parent (doc (st' f)) /\
        (forall q d', In q pre -> ~ documents st name q d')) \/
    ((forall q d', In q (bases cls) -> ~ documents st name q d') /\
     doc (st' f) = DocNone).
Proof.
  intros Hnd Hpar H name f Hin Hm. unfold resolve in H.
  destruct (resolve_loop (bases cls) (vars cls) false st) as [[b | e] st1] eqn:E;
    [| discriminate].
  destruct b; [| discriminate]. inversion H; subst.
  rewrite (resolve_loop_inherits _ _ _ _ _ _ Hnd Hpar E name f Hin Hm).
  destruct (inherit_loop st name (bases c) false) as [b d] eqn:El.
  destruct (inherit_loop_spec st name (bases c) false b d El)
    as [[pre [parent [post [Hp [Hdoc [Hpre _]]]]]] | [Hnone [Hd _]]].
  - left. exists pre, parent, post. repeat split; assumption.
  - right. split; assumption.
Qed.

(** For the first marked entry of the class: when no base documents its
    name and the last base has no truthy attribute of that name (or
    there is no base), [resolve] raises [TypeError], whatever the
    earlier bases have, and the function is left with [None] for a
    docstring. *)
Theorem resolve_last_base_decides (cls : class) (st : store)
  (pre post : list (string * ref)) (name : string) (f : ref) :
  vars cls = pre ++ (name, f) :: post ->
  (forall n g, In (n, g) pre -> ~ marked st g) ->
  marked st f ->
  (forall q d, In q (bases cls) -> ~ documents st name q d) ->
  attr_truth st (last (bases cls) []) name = false ->
  resolve cls st = (Throw TypeError, set_doc st f DocNone).
Proof.
  intros Hv Hpre Hm Hnone Hlast. unfold resolve. rewrite Hv.
  rewrite (resolve_loop_skip_prefix _ _ _ _ _ Hpre).
  cbn [resolve_loop]. unfold marked in Hm. rewrite Hm.
  rewrite (inherit_loop_none st name (bases cls) Hnone), Hlast. reflexivity.
Qed.

(** The intended use.  [mark] on an undocumented function bound once in
    the class, then [resolve] on the class with no other entry marked:
    both return, the function gets the docstring of the first base that
    documents its name, and no other object changes. *)
Theorem mark_then_resolve (cls : class) (st : store)
  (pre post : list (string * ref)) (name : string) (f : ref)
  (bpre bpost : list namespace) (parent : namespace) (d : docval) :
  doc (st f) = DocNone ->
  vars cls = pre ++ (name, f) :: post ->
  ~ In f (map snd pre) ->
  (forall n g, In (n, g) (pre ++ post) -> ~ marked st g) ->
  bases cls = bpre ++ parent :: bpost ->
  documents st name parent d ->
  (forall q d', In q bpre -> ~ documents st name q d') ->
  (forall q r, In q (bases cls) -> getattr q name = Some r -> r <> f) ->
  exists st1 st2,
    mark f st = (Return f, st1) /\
    resolve cls st1 = (Return cls, st2) /\
    doc (st2 f) = d /\
    forall r, r <> f -> st2 r = st r.
Proof.
  intros Hdoc Hv Hnotin Hothers Hb Hparent Hbpre Hdistinct.
  set (st1 := set_doc st f DocSentinel).
  assert (Hd : d <> DocSentinel).
  { destruct Hparent as [r [_ [_ [_ Hdt]]]]. apply doc_truthy_not_sentinel.
    right. exact Hdt. }
  exists st1, (set_doc st1 f d).
  split; [unfold mark; rewrite Hdoc; reflexivity |].
  split; [| split].
  - unfold resolve. rewrite Hv.
    rewrite resolve_loop_skip_prefix.
    + cbn [resolve_loop]. unfold st1 at 1. rewrite set_doc_same.
      assert (Hloop : inherit_loop st1 name (bases cls) false = (true, d)).
      { rewrite (inherit_loop_ext st1 st name (bases cls)).
        - rewrite Hb. apply inherit_loop_first; assumption.
        - intros q r Hq Hr. apply set_doc_other. apply (Hdistinct q r Hq Hr). }
      rewrite Hloop.
      rewrite resolve_loop_skip; [reflexivity |].
      intros n g Hin. unfold marked.
      destruct (Nat.eq_dec g f) as [Heq | Hne].
      * subst g. rewrite set_doc_same. exact Hd.
      * rewrite (set_doc_other st1 f g d Hne). unfold st1.
        rewrite (set_doc_other st f g DocSentinel Hne).
        apply (Hothers n g). apply in_or_app. right. exact Hin.
    + intros n g Hin. unfold marked, st1.
      assert (Hne : g <> f).
      { intro Heq. subst g. apply Hnotin. apply (in_map snd) in Hin. exact Hin. }
      rewrite (set_doc_other st f g DocSentinel Hne).
      apply (Hothers n g). apply in_or_app. left. exact Hin.
  - apply set_doc_same.
  - intros r Hr. rewrite (set_doc_other st1 f r d Hr). unfold st1.
    apply (set_doc_other st f r DocSentinel Hr).
Qed.

End InheritDocTheorems.

(** ** The examples *)

Lemma example_unmarked :
  forall n f, In (n, f) (InheritDoc.vars example_class) ->
              ~ InheritDoc.marked example_store f.
Proof.
  intros n f [H | []]. inversion H; subst. unfold InheritDoc.marked. simpl.
  discriminate.
Qed.

Lemma plain_base_undocumented (st : InheritDoc.store) (d : InheritDoc.docval) :
  InheritDoc.doc (st 1%nat) = InheritDoc.DocNone ->
  ~ InheritDoc.documents st "area" plain_base d.
Proof.
  intros Hdoc [r [Hr [_ [Hd Hdt]]]]. simpl in Hr. inversion Hr; subst r.
  rewrite Hdoc in Hd. subst d. discriminate.
Qed.

Lemma empty_base_undocumented (st : InheritDoc.store) (d : InheritDoc.docval) :
  ~ InheritDoc.documents st "area" empty_base d.
Proof. intros [r [Hr _]]. discriminate. Qed.

Lemma example_bases_unmarked :
  forall parent n r,
    In parent (InheritDoc.bases example_class) ->
    InheritDoc.getattr parent n = Some r ->
    ~ InheritDoc.marked marked_store r.
Proof.
  intros parent n r [Hp | [Hp | []]] Hr; subst parent;
    unfold plain_base, documented_base in Hr; cbn [InheritDoc.getattr] in Hr;
    destruct (String.eqb "area" n); inversion Hr; subst;
    unfold InheritDoc.marked; intro H; vm_compute in H; discriminate H.
Qed.

Lemma resolve_requires_mark_witness :
  InheritDoc.resolve example_class example_store = (Throw TypeError, example_store).
Proof.
  apply (resolve_requires_mark example_class example_store example_unmarked).
Defined.

Lemma resolve_clears_marks_witness :
  example_class = example_class /\
  (exists n f, In (n, f) (InheritDoc.vars example_class) /\
               InheritDoc.marked marked_store f) /\
  (forall n f, In (n, f) (InheritDoc.vars example_class) ->
               ~ InheritDoc.marked
                   (snd (InheritDoc.resolve example_class marked_store)) f).
Proof.
  apply (resolve_clears_marks example_class example_class marked_store
           (snd (InheritDoc.resolve example_class marked_store))).
  reflexivity.
Defined.

Lemma resolve_frame_witness :
  snd (InheritDoc.resolve example_class marked_store) 0%nat = marked_store 0%nat \/
  (InheritDoc.marked marked_store 0%nat /\
   In 0%nat (map snd (InheritDoc.vars example_class)) /\
   InheritDoc.truth (snd (InheritDoc.resolve example_class marked_store) 0%nat)
     = InheritDoc.truth (marked_store 0%nat) /\
   (InheritDoc.doc (snd (InheritDoc.resolve example_class marked_store) 0%nat)
      = InheritDoc.DocNone \/
    exists s,
      InheritDoc.doc (snd (InheritDoc.resolve example_class marked_store) 0%nat)
        = InheritDoc.DocStr s /\ s <> ""%string)).
Proof.
  apply (resolve_frame example_class marked_store
           (snd (InheritDoc.resolve example_class marked_store))
           (Return example_class) 0%nat).
  reflexivity.
Defined.

Lemma resolve_inherits_first_documented_witness :
  (exists pre parent post,
      InheritDoc.bases example_class = pre ++ parent :: post /\
      InheritDoc.documents marked_store "area" parent
        (InheritDoc.doc (snd (InheritDoc.resolve example_class marked_store) 0%nat)) /\
      (forall q d', In q pre -> ~ InheritDoc.documents marked_store "area" q d')) \/
  ((forall q d', In q (InheritDoc.bases example_class) ->
                 ~ InheritDoc.documents marked_store "area" q d') /\
   InheritDoc.doc (snd (InheritDoc.resolve example_class marked_store) 0%nat)
     = InheritDoc.DocNone).
Proof.
  apply (resolve_inherits_first_documented example_class example_class marked_store
           (snd (InheritDoc.resolve example_class marked_store))).
  - simpl. constructor; [intros [] | constructor].
  - exact example_bases_unmarked.
  - reflexivity.
  - left. reflexivity.
  - reflexivity.
Defined.

Lemma resolve_last_base_decides_witness :
  InheritDoc.resolve orphan_class marked_store
  = (Throw TypeError, InheritDoc.set_doc marked_store 0%nat InheritDoc.DocNone).
Proof.
  apply (resolve_last_base_decides orphan_class marked_store [] [] "area" 0%nat).
  - reflexivity.
  - intros n g [].
  - reflexivity.
  - intros q d [Hq | [Hq | []]]; subst q.
    + apply plain_base_undocumented. reflexivity.
    + apply empty_base_undocumented.
  - reflexivity.
Defined.

Lemma mark_then_resolve_witness :
  exists st1 st2,
    InheritDoc.mark 0%nat example_store = (Return 0%nat, st1) /\
    InheritDoc.resolve example_class st1 = (Return example_class, st2) /\
    InheritDoc.doc (st2 0%nat) = InheritDoc.DocStr "Area of the shape." /\
    forall r, r <> 0%nat -> st2 r = example_store r.
Proof.
  apply (mark_then_resolve example_class example_store [] [] "area" 0%nat
           [plain_base] [] documented_base (InheritDoc.DocStr "Area of the shape.")).
  - reflexivity.
  - reflexivity.
  - intros [].
  - intros n g [].
  - reflexivity.
  - exists 2%nat. repeat split; reflexivity.
  - intros q d [Hq | []]. subst q. apply plain_base_undocumented. reflexivity.
  - intros q r [Hq | [Hq | []]] Hr; subst q; simpl in Hr; inversion Hr; discriminate.
Defined.

(** * [prefix] *)

Lemma starts_with_append (p x : string) : String.prefix p (p ++ x) = true.
Proof.
  induction p as [| a p IH]; simpl.
  - destruct x; reflexivity.
  - destruct (ascii_dec a a) as [_ | Hne]; [exact IH | contradiction].
Qed.

Lemma append_cancel_l (p x y : string) :
  (p ++ x = p ++ y)%string -> x = y.
Proof.
  induction p as [| a p IH]; simpl; intro H; [exact H |].
  inversion H. apply IH. assumption.
Qed.

Lemma append_associative (p q x : string) :
  (p ++ (q ++ x) = (p ++ q) ++ x)%string.
Proof.
  induction p as [| a p IH]; simpl; [reflexivity |]. rewrite IH. reflexivity.
Qed.

(** [prefix] yields one string per item, and each starts with the prefix. *)
Theorem prefix_starts_with (p : string) (items : list string) :
  length (prefix p items) = length items /\
  forall y, In y (prefix p items) -> String.prefix p y = true.
Proof.
  unfold prefix. split; [apply length_map |].
  intros y Hy. apply in_map_iff in Hy. destruct Hy as [x [Hx _]].
  subst y. apply starts_with_append.
Qed.

(** Prefixing twice is prefixing once with the two prefixes joined, the
    outer one first. *)
Theorem prefix_compose (p q : string) (items : list string) :
  prefix p (prefix q items) = prefix (p ++ q) items.
Proof.
  unfold prefix. rewrite map_map. apply map_ext.
  intro x. apply append_associative.
Qed.

(** [prefix] loses nothing: equal outputs come from equal items. *)
Theorem prefix_injective (p : string) (xs ys : list string) :
  prefix p xs = prefix p ys -> xs = ys.
Proof.
  unfold prefix. revert ys. induction xs as [| x xs IH]; intros [| y ys] H;
    simpl in H; try reflexivity; try discriminate.
  inversion H as [[Hx Hrest]]. f_equal.
  - apply (append_cancel_l p), Hx.
  - apply IH, Hrest.
Qed.

Lemma prefix_injective_witness :
  ["a"; "b"]%string = ["a"; "b"]%string.
Proof.
  apply (prefix_injective "x-" ["a"; "b"]%string ["a"; "b"]%string).
  reflexivity.
Defined.

(** * Witness for the ascending case *)

Lemma ascending_example : StronglySorted Qlt [1#1; 3#1; 7#1]%Q.
Proof.
  repeat constructor.
Qed.

Lemma ascending_insertion_point :
  leftmost_insertion_point [1#1; 3#1; 7#1]%Q (6#1) 2.
Proof.
  change 2 with (searchsorted_left [1#1; 3#1; 7#1]%Q (6#1)).
  apply searchsorted_left_spec.
  repeat constructor; vm_compute; discriminate.
Qed.

Lemma find_nearest_index_ascending_witness :
  (2 = len [1#1; 3#1; 7#1]%Q /\
   find_nearest_index float64 [1#1; 3#1; 7#1]%Q (6#1)
     = Ok (len [1#1; 3#1; 7#1]%Q - 1)) \/
  (2 = 0 /\ find_nearest_index float64 [1#1; 3#1; 7#1]%Q (6#1) = Ok 0) \/
  (0 < 2 < len [1#1; 3#1; 7#1]%Q /\
   exists before at_p,
     getitem [1#1; 3#1; 7#1]%Q (2 - 1) = Ok before /\
     getitem [1#1; 3#1; 7#1]%Q 2 = Ok at_p /\
     (((distance float64 (6#1) before < distance float64 (6#1) at_p)%Q /\
       find_nearest_index float64 [1#1; 3#1; 7#1]%Q (6#1) = Ok (2 - 1)) \/
      (~ (distance float64 (6#1) before < distance float64 (6#1) at_p)%Q /\
       find_nearest_index float64 [1#1; 3#1; 7#1]%Q (6#1) = Ok 2))).
Proof.
  apply (find_nearest_index_ascending float64 [1#1; 3#1; 7#1]%Q (6#1) 2).
  - vm_compute. reflexivity.
  - exact ascending_example.
  - discriminate.
  - exact ascending_insertion_point.
Defined.

(** On the strictly ascending float64 array [[0.5, 2^54]] with value
    [2^53] the two computed distances are equal and the insertion point
    itself is returned. *)
Example ascending_rounded :
  find_nearest_index float64 [1#2; inject_Z (2 ^ 54)] (inject_Z (2 ^ 53)) = Ok 1 /\
  (distance float64 (inject_Z (2 ^ 53)) (1#2)
   == distance float64 (inject_Z (2 ^ 53)) (inject_Z (2 ^ 54)))%Q.
Proof. split; vm_compute; reflexivity. Qed.

(** * The order of the array *)

Lemma In_getitem {A : Type} (l : list A) (x : A) :
  In x l -> exists j, getitem l j = Ok x.
Proof.
  intro H. apply In_nth_error in H. destruct H as [m Hm].
  exists (Z.of_nat m). apply getitem_nat, Hm.
Qed.

(** The element returned, in terms of the elements of the array alone:
    the largest when all are below the value, the smallest when none is,
    and otherwise the one the comparison picks among the largest element
    below the value and the smallest element not below it. *)
Lemma find_nearest_index_value (dt : dtype) (a : list Q) (v : Q) (i : Z) (x : Q) :
  find_nearest_index dt a v = Ok i ->
  getitem a i = Ok x ->
  ((forall y, In y a -> (y < v)%Q) /\ (forall y, In y a -> (y <= x)%Q)) \/
  ((forall y, In y a -> (v <= y)%Q) /\ (forall y, In y a -> (x <= y)%Q)) \/
  (exists lo hi,
      In lo a /\ In hi a /\ (lo < v)%Q /\ (v <= hi)%Q /\
      (forall y, In y a -> (y <= lo)%Q \/ (hi <= y)%Q) /\
      x = if Qlt_bool (distance dt v lo) (distance dt v hi) then lo else hi).
Proof.
  intros Hf Hx.
  assert (Hne : a <> [])
    by (intro E; subst a; rewrite getitem_nil in Hx; discriminate).
  pose proof (searchsorted_left_spec _ v (sorted_values_sorted a)) as Hp.
  set (p := searchsorted_left (sorted_values a) v) in *.
  pose proof Hp as [Hr [Hbelow Habove]]. rewrite sorted_values_len in Hr, Habove.
  assert (Hpos : forall y, In y a ->
                   exists m, 0 <= m < len a /\ getitem (sorted_values a) m = Ok y).
  { intros y Hy. destruct (In_getitem a y Hy) as [j Hj].
    apply (element_sorted_position a j y Hj). }
  destruct (find_nearest_index_cases dt a v p Hne Hp)
    as [[Hpe [i' [x' [Hf' [_ [Hx' [Hg _]]]]]]]
       | [[Hpe [i' [x' [Hf' [_ [Hx' [Hg _]]]]]]]
         | [Hpi [i' [k [lo [hi [_ [_ [Hlo [Hhi [Hgi [Hgk [_ [_ Hf']]]]]]]]]]]]]]].
  - left. rewrite Hf in Hf'. inversion Hf'; subst i'.
    rewrite Hx in Hg. inversion Hg; subst x'. split.
    + intros y Hy. destruct (Hpos y Hy) as [m [Hm Hym]].
      apply (Hbelow m); [lia | exact Hym].
    + intros y Hy. destruct (Hpos y Hy) as [m [Hm Hym]].
      apply (sorted_values_mono a m (len a - 1)); [lia | exact Hym | exact Hx'].
  - right; left. rewrite Hf in Hf'. inversion Hf'; subst i'.
    rewrite Hx in Hg. inversion Hg; subst x'. split.
    + intros y Hy. destruct (Hpos y Hy) as [m [Hm Hym]].
      apply (Habove m); [lia | exact Hym].
    + intros y Hy. destruct (Hpos y Hy) as [m [Hm Hym]].
      apply (sorted_values_mono a 0 m); [lia | exact Hx' | exact Hym].
  - right; right. exists lo, hi.
    split; [apply (getitem_In _ _ _ Hgi) |].
    split; [apply (getitem_In _ _ _ Hgk) |].
    split; [apply (Hbelow (p - 1)); [lia | exact Hlo] |].
    split; [apply (Habove p); [lia | exact Hhi] |].
    split.
    + intros y Hy. destruct (Hpos y Hy) as [m [Hm Hym]].
      destruct (Z_lt_le_dec m p) as [Hmp | Hmp].
      * left. apply (sorted_values_mono a m (p - 1)); [lia | exact Hym | exact Hlo].
      * right. apply (sorted_values_mono a p m); [lia | exact Hhi | exact Hym].
    + rewrite Hf in Hf'.
      destruct (Qlt_bool (distance dt v lo) (distance dt v hi));
        inversion Hf'; subst i; congruence.
Qed.

(** The value found does not depend on the order of the array: on two
    arrangements of the same elements the positions returned hold equal
    values. *)
Theorem find_nearest_index_value_perm (dt : dtype) (a b : list Q) (value : Q)
  (i j : Z) (x y : Q) :
  Permutation a b ->
  find_nearest_index dt a value = Ok i -> getitem a i = Ok x ->
  find_nearest_index dt b value = Ok j -> getitem b j = Ok y ->
  (x == y)%Q.
Proof.
  intros Hperm Hfa Hx Hfb Hy.
  assert (Hab : forall z, In z a -> In z b) by (intro z; apply Permutation_in, Hperm).
  assert (Hba : forall z, In z b -> In z a)
    by (intro z; apply Permutation_in, Permutation_sym, Hperm).
  pose proof (getitem_In _ _ _ Hx) as Hxa.
  pose proof (getitem_In _ _ _ Hy) as Hyb.
  destruct (find_nearest_index_value dt a value i x Hfa Hx)
    as [[HA1 HA2] | [[HA1 HA2] | [la [ha [Hla [Hha [Hlav [Hhav [HAall HAx]]]]]]]]];
    destruct (find_nearest_index_value dt b value j y Hfb Hy)
      as [[HB1 HB2] | [[HB1 HB2] | [lb [hb [Hlb [Hhb [Hlbv [Hhbv [HBall HBy]]]]]]]]].
  - apply Qle_antisym; [apply HB2, Hab, Hxa | apply HA2, Hba, Hyb].
  - exfalso. apply (Qlt_not_le _ _ (HA1 x Hxa)). apply HB1, Hab, Hxa.
  - exfalso. apply (Qlt_not_le _ _ (HA1 hb (Hba hb Hhb))). exact Hhbv.
  - exfalso. apply (Qlt_not_le _ _ (HB1 y Hyb)). apply HA1, Hba, Hyb.
  - apply Qle_antisym; [apply HA2, Hba, Hyb | apply HB2, Hab, Hxa].
  - exfalso. apply (Qlt_not_le _ _ Hlbv). apply HA1, Hba, Hlb.
  - exfalso. apply (Qlt_not_le _ _ (HB1 ha (Hab ha Hha))). exact Hhav.
  - exfalso. apply (Qlt_not_le _ _ Hlav). apply HB1, Hab, Hla.
  - assert (Hlo : (la == lb)%Q).
    { apply Qle_antisym.
      - destruct (HBall la (Hab la Hla)) as [H | H]; [exact H |].
        exfalso. apply (Qlt_not_le _ _ Hlav). apply Qle_trans with hb; assumption.
      - destruct (HAall lb (Hba lb Hlb)) as [H | H]; [exact H |].
        exfalso. apply (Qlt_not_le _ _ Hlbv). apply Qle_trans with ha; assumption. }
    assert (Hhi : (ha == hb)%Q).
    { apply Qle_antisym.
      - destruct (HAall hb (Hba hb Hhb)) as [H | H]; [| exact H].
        exfalso. apply (Qlt_not_le _ _ Hlav). apply Qle_trans with hb; assumption.
      - destruct (HBall ha (Hab ha Hha)) as [H | H]; [| exact H].
        exfalso. apply (Qlt_not_le _ _ Hlbv). apply Qle_trans with ha; assumption. }
    rewrite (distance_comp dt value value la lb (Qeq_refl value) Hlo) in HAx.
    rewrite (distance_comp dt value value ha hb (Qeq_refl value) Hhi) in HAx.
    subst x y.
    destruct (Qlt_bool (distance dt value lb) (distance dt value hb)); assumption.
Qed.

Lemma find_nearest_index_value_perm_witness : (3#1 == 3#1)%Q.
Proof.
  apply (find_nearest_index_value_perm float64 [1#1; 3#1] [3#1; 1#1] (2#1) 1 0
           (3#1) (3#1)).
  - apply perm_swap.
  - vm_compute. reflexivity.
  - vm_compute. reflexivity.
  - vm_compute. reflexivity.
  - vm_compute. reflexivity.
Defined.
